(** * Event tracking of [roi/business_logic.py]

    A shallow embedding of the classes [Event] and [RoIBusinessLogic] and
    the properties of the start/end signalling they implement.

    Python integers are unbounded, so counters are in [Z].  A Python [dict]
    keeps its keys in insertion order and [_event_dict] is iterated with
    [.items()], so it is an association list with the dict operations
    written out; [_active_events] is only tested, read and updated by key,
    so it is a [gmap]; the local [set]s are [gset]s. *)

From stdpp Require Import gmap strings list fin_maps.
From Stdlib Require Import ZArith Lia.

Local Open Scope Z_scope.

(** ** The payload: [Detection] *)

(** One element of [detection["predictions"]]: a dict of which the code
    reads the key ["classId"] only.  [classId = None] is a prediction
    without that key. *)
Record Prediction := mkPrediction {
  classId : option string;
  pred_fields : string
}.

(** The payload of one frame: a dict of which the code reads the key
    ["predictions"] only; [predictions = None] is a payload without that
    key.  [other_fields] stands for 'frame', 'url', 'processedAt', 'misc'. *)
Record Detection := mkDetection {
  other_fields : string;
  predictions : option (list Prediction)
}.

(** A reading of [time.time()]; the code stores it and never looks at it. *)
Definition Timestamp := Z.

Inductive Signal :=
| EventStartedSignal (event_id : string) (detection : Detection)
| EventEndedSignal (event_id : string) (detection : Detection).

Inductive Exception := KeyError.

(** What a call does: it returns a value or raises. *)
Inductive Outcome (A : Type) :=
| Returned (a : A)
| Raised (e : Exception).
Arguments Returned {A} a.
Arguments Raised {A} e.

(** ** Python's insertion-ordered [dict] with string keys *)

Module Dict.

Abbreviation t V := (list (string * V)).

Definition keys {V} (d : t V) : list string := d.*1.

Definition items {V} (d : t V) : list (string * V) := d.

(** [d.get(k)]; [None] is the missing key. *)
Fixpoint get {V} (k : string) (d : t V) : option V :=
  match d with
  | [] => None
  | (k', v) :: d' => if decide (k = k') then Some v else get k d'
  end.

(** [k in d] *)
Definition mem {V} (k : string) (d : t V) : bool :=
  match get k d with Some _ => true | None => false end.

(** [d[k] = v]: a present key keeps its place, a new one goes last. *)
Fixpoint set {V} (k : string) (v : V) (d : t V) : t V :=
  match d with
  | [] => [(k, v)]
  | (k', v') :: d' =>
      if decide (k = k') then (k', v) :: d' else (k', v') :: set k v d'
  end.

(** [d[k].method()] for a method that mutates the object held under [k]. *)
Fixpoint alter {V} (f : V → V) (k : string) (d : t V) : t V :=
  match d with
  | [] => []
  | (k', v') :: d' =>
      if decide (k = k') then (k', f v') :: d' else (k', v') :: alter f k d'
  end.

(** [del d[k]] *)
Fixpoint del {V} (k : string) (d : t V) : t V :=
  match d with
  | [] => []
  | (k', v') :: d' =>
      if decide (k = k') then d' else (k', v') :: del k d'
  end.

(** The representation invariant: a dict holds a key once.  Every
    Python dict does; the operations above keep it. *)
Definition wf {V} (d : t V) : Prop := NoDup (keys d).

End Dict.

(** ** class Event *)

Record Event := mkEvent {
  detection : Detection;
  num_detected_frames : Z;
  creation_time : Timestamp;
  ttl : Z;
  current_ttl : Z
}.

(** [Event.__init__]; [now] is the reading of [time.time()]. *)
Definition Event_init (detection : Detection) (ttl : Z) (now : Timestamp) : Event :=
  {| detection := detection;
     num_detected_frames := 1;
     creation_time := now;
     ttl := ttl;
     current_ttl := ttl |}.

Definition _reset_ttl (self : Event) : Event :=
  {| detection := detection self;
     num_detected_frames := num_detected_frames self;
     creation_time := creation_time self;
     ttl := ttl self;
     current_ttl := ttl self |}.

Definition no_detection (self : Event) : Event :=
  {| detection := detection self;
     num_detected_frames := num_detected_frames self;
     creation_time := creation_time self;
     ttl := ttl self;
     current_ttl := current_ttl self - 1 |}.

Definition new_detection (detection' : Detection) (self : Event) : Event :=
  _reset_ttl
    {| detection := detection';
       num_detected_frames := num_detected_frames self + 1;
       creation_time := creation_time self;
       ttl := ttl self;
       current_ttl := current_ttl self |}.

Definition is_expired (self : Event) : bool := current_ttl self <=? 0.

(** The two mutators, as data, to speak of any sequence of calls. *)
Inductive EventCall :=
| NoDetection
| NewDetection (detection' : Detection).

Definition call (self : Event) (c : EventCall) : Event :=
  match c with
  | NoDetection => no_detection self
  | NewDetection d => new_detection d self
  end.

Definition calls (self : Event) (cs : list EventCall) : Event := foldl call self cs.

(** ** class RoIBusinessLogic *)

(** The object's four attributes, and the number of calls made so far to
    [uuid4()] and [time.time()], the two sources of values outside the
    program. *)
Record RoIBusinessLogic := mkRoI {
  _total_frames : Z;
  _event_dict : Dict.t Event;
  _active_events : gmap string string;
  _ttl : Z;
  uuid_calls : nat;
  time_calls : nat
}.

Definition RoIBusinessLogic_init (total_frames ttl : Z) : RoIBusinessLogic :=
  {| _total_frames := total_frames;
     _event_dict := [];
     _active_events := ∅;
     _ttl := ttl;
     uuid_calls := 0;
     time_calls := 0 |}.

Definition with_event_dict (d : Dict.t Event) (self : RoIBusinessLogic)
    : RoIBusinessLogic :=
  {| _total_frames := _total_frames self;
     _event_dict := d;
     _active_events := _active_events self;
     _ttl := _ttl self;
     uuid_calls := uuid_calls self;
     time_calls := time_calls self |}.

Definition with_active_events (a : gmap string string)
    (self : RoIBusinessLogic) : RoIBusinessLogic :=
  {| _total_frames := _total_frames self;
     _event_dict := _event_dict self;
     _active_events := a;
     _ttl := _ttl self;
     uuid_calls := uuid_calls self;
     time_calls := time_calls self |}.

Definition tick_uuid (self : RoIBusinessLogic) : RoIBusinessLogic :=
  {| _total_frames := _total_frames self;
     _event_dict := _event_dict self;
     _active_events := _active_events self;
     _ttl := _ttl self;
     uuid_calls := S (uuid_calls self);
     time_calls := time_calls self |}.

Definition tick_time (self : RoIBusinessLogic) : RoIBusinessLogic :=
  {| _total_frames := _total_frames self;
     _event_dict := _event_dict self;
     _active_events := _active_events self;
     _ttl := _ttl self;
     uuid_calls := uuid_calls self;
     time_calls := S (time_calls self) |}.

Definition _is_start_event (self : RoIBusinessLogic) (key : string)
    (event : Event) : bool :=
  if num_detected_frames event <? _total_frames self then false
  else if bool_decide (is_Some (_active_events self !! key)) then false
  else true.

Definition _is_end_event (self : RoIBusinessLogic) (key : string) : bool :=
  if negb (bool_decide (is_Some (_active_events self !! key))) then false
  else true.

(** A payload with the given class identifiers, in this order. *)
Definition frame_of (name : string) (classes : list string) : Detection :=
  {| other_fields := name;
     predictions := Some ((λ c, mkPrediction (Some c) "") <$> classes) |}.

(** A fixed choice of identifiers and clock readings, to run the code. *)
Definition uuid0 (n : nat) : string := String (Ascii.ascii_of_nat (48 + n)) "".
Definition clock0 (n : nat) : Timestamp := Z.of_nat n.

(** The class identifiers of a payload, in order, when it has the key
    ["predictions"] and each prediction the key ["classId"]. *)
Definition frame_classes (d : Detection) : option (list string) :=
  preds ← predictions d; mapM classId preds.

(** How many times [c] occurs in [l]. *)
Definition times (c : string) (l : list string) : nat :=
  length (filter (λ x, x = c) l).

Definition is_started (s : Signal) : bool :=
  match s with EventStartedSignal _ _ => true | EventEndedSignal _ _ => false end.

Definition is_ended (s : Signal) : bool :=
  match s with EventStartedSignal _ _ => false | EventEndedSignal _ _ => true end.

(** ** pipeline.py: [Pipeline.alerta] and [Pipeline.process_detection]

    [RegionOfInterest] is not among the sources: its method [process] is
    a parameter [roi_process], a function of the payload that returns a
    payload or raises an exception of its own, of a type [E]. *)

Inductive Result (E A : Type) :=
| Done (a : A)
| Failed (e : E).
Arguments Done {E A} a.
Arguments Failed {E A} e.

(** What [process_detection] can raise: an exception of this module's
    code, or one of the region filter. *)
Inductive Failure (E : Type) :=
| PyError (e : Exception)
| FilterError (e : E).
Arguments PyError {E} e.
Arguments FilterError {E} e.

(** The pipeline object: its tracker, and the lines printed so far. *)
Record Pipeline := mkPipeline {
  _business_logic : RoIBusinessLogic;
  stdout : list string
}.

(** [Pipeline.alerta].  Both branches of the loop body return, so the
    loop never makes a second iteration: the function reads
    [predictions[0]] only, and returns [None] on an empty list. *)
Definition alerta (predictions : list Prediction) (out : list string)
    : Outcome (option bool) * list string :=
  match predictions with
  | [] => (Returned None, out)
  | pred :: _ =>
      match classId pred with
      | None => (Raised KeyError, out)
      | Some c =>
          if bool_decide (c = "backpack") || bool_decide (c = "handbag")
          then (Returned (Some true),
                out ++ [c +:+ " encontrada! Avise o funcionario"])
          else (Returned (Some false), out)
      end
  end.

(** ** Concrete runs

    They draw the identifiers ["0"], ["1"], ... and read the clock as
    0, 1, ... *)

Definition car1 : Detection := frame_of "f1" ["car"].
Definition car2 : Detection := frame_of "f2" ["car"].
Definition car3 : Detection := frame_of "f3" ["car"].
Definition none4 : Detection := frame_of "f4" [].
Definition none5 : Detection := frame_of "f5" [].
Definition dog2 : Detection := frame_of "f2" ["dog"].
Definition twice : Detection := frame_of "f2" ["car"; "dog"; "car"].
Definition no_predictions : Detection := mkDetection "f2" None.
Definition dog1 : Detection := frame_of "f1" ["dog"].
Definition none2 : Detection := frame_of "f2" [].

Definition car_dog : Detection := frame_of "f1" ["car"; "dog"].
Definition broken2 : Detection :=
  mkDetection "f2"
    (Some [mkPrediction (Some "car") ""; mkPrediction None "";
           mkPrediction (Some "dog") ""]).
Definition bag_first : Detection := frame_of "f1" ["handbag"; "person"].

(** The car after frames 1 to 3. *)
Definition car_event : Event :=
  {| detection := car3;
     num_detected_frames := 3;
     creation_time := clock0 0;
     ttl := 2;
     current_ttl := 2 |}.

(** A region filter that keeps no prediction. *)
Definition roi_none (d : Detection) : Result string Detection :=
  Done (mkDetection (other_fields d) (Some [])).

Section Tracker.

(** [uuid4 n] is the string of the [n]-th identifier drawn, [time_time n]
    the [n]-th reading of the clock. *)
Variable uuid4 : nat → string.
Variable time_time : nat → Timestamp.

(** The loop of [_get_starting_events] over [self._event_dict.items()];
    [events] is the list being appended to. *)
Fixpoint starting_loop (items : list (string * Event)) (events : list Signal)
    (self : RoIBusinessLogic) : list Signal * RoIBusinessLogic :=
  match items with
  | [] => (events, self)
  | (k, event) :: items' =>
      if _is_start_event self k event then
        let event_id := uuid4 (uuid_calls self) in
        starting_loop items'
          (events ++ [EventStartedSignal event_id (detection event)])
          (with_active_events (<[k := event_id]> (_active_events self))
             (tick_uuid self))
      else starting_loop items' events self
  end.

Definition _get_starting_events (self : RoIBusinessLogic)
    : list Signal * RoIBusinessLogic :=
  starting_loop (Dict.items (_event_dict self)) [] self.

(** The first loop of [_get_ending_events].  The subscript
    [self._active_events[k]] is made right after [_is_end_event] found
    the key, so its missing-key branch is dead
    (see [is_end_event_lookup]). *)
Fixpoint ending_loop (items : list (string * Event)) (events : list Signal)
    (del_events : list string) (self : RoIBusinessLogic)
    : list Signal * list string * RoIBusinessLogic :=
  match items with
  | [] => (events, del_events, self)
  | (k, event) :: items' =>
      if negb (is_expired event) then ending_loop items' events del_events self
      else
        let del_events := del_events ++ [k] in
        if _is_end_event self k then
          match _active_events self !! k with
          | Some event_id =>
              ending_loop items'
                (events ++ [EventEndedSignal event_id (detection event)])
                del_events
                (with_active_events (delete k (_active_events self)) self)
          | None => ending_loop items' events del_events self
          end
        else ending_loop items' events del_events self
  end.

(** The second loop of [_get_ending_events]: [del self._event_dict[k]]. *)
Definition delete_loop (del_events : list string) (d : Dict.t Event) : Dict.t Event :=
  foldl (λ d k, Dict.del k d) d del_events.

Definition _get_ending_events (self : RoIBusinessLogic)
    : list Signal * RoIBusinessLogic :=
  let '(events, del_events, self1) :=
    ending_loop (Dict.items (_event_dict self)) [] [] self in
  (events, with_event_dict (delete_loop del_events (_event_dict self1)) self1).

(** The body of the first loop of [process] once [pred["classId"]] has
    been read as [c]: a new [Event] under a new key, [new_detection] on
    the one already there. *)
Definition update_step (detection : Detection) (c : string)
    (self : RoIBusinessLogic) : RoIBusinessLogic :=
  if negb (Dict.mem c (_event_dict self)) then
    let new_event := Event_init detection (_ttl self) (time_time (time_calls self)) in
    with_event_dict (Dict.set c new_event (_event_dict self)) (tick_time self)
  else
    with_event_dict
      (Dict.alter (new_detection detection) c (_event_dict self)) self.

(** The first loop of [process], over [detection["predictions"]].  A
    prediction without ["classId"] raises at its first subscript, before
    this iteration changes anything; what earlier iterations did stays. *)
Fixpoint update_loop (detection : Detection) (preds : list Prediction)
    (current_frame_classes : gset string) (self : RoIBusinessLogic)
    : Outcome (gset string) * RoIBusinessLogic :=
  match preds with
  | [] => (Returned current_frame_classes, self)
  | pred :: preds' =>
      match classId pred with
      | None => (Raised KeyError, self)
      | Some c =>
          update_loop detection preds' (current_frame_classes ∪ {[c]})
            (update_step detection c self)
      end
  end.

(** The second loop of [process], over the set [classes_not_in_frame]
    (in the order [elements] lists it; the result does not depend on
    it, see [decay_loop_get]). *)
Definition decay_loop (classes_not_in_frame : list string) (d : Dict.t Event)
    : Dict.t Event :=
  foldl (λ d cls, Dict.alter no_detection cls d) d classes_not_in_frame.

(** Lines 197-210 of [process]: both loops.  The result is the state on
    which [_get_starting_events] is called. *)
Definition track (self : RoIBusinessLogic) (detection : Detection)
    : Outcome () * RoIBusinessLogic :=
  match predictions detection with
  | None => (Raised KeyError, self)
  | Some preds =>
      match update_loop detection preds ∅ self with
      | (Raised e, self1) => (Raised e, self1)
      | (Returned current_frame_classes, self1) =>
          let active_events_classes : gset string :=
            list_to_set (Dict.keys (_event_dict self1)) in
          let classes_not_in_frame :=
            active_events_classes ∖ current_frame_classes in
          (Returned (),
           with_event_dict
             (decay_loop (elements classes_not_in_frame) (_event_dict self1))
             self1)
      end
  end.

(** [all_events if all_events else None] *)
Definition or_None (all_events : list Signal) : option (list Signal) :=
  match all_events with
  | [] => None
  | _ => Some all_events
  end.

Definition process (self : RoIBusinessLogic) (detection : Detection)
    : Outcome (option (list Signal)) * RoIBusinessLogic :=
  match track self detection with
  | (Raised e, self1) => (Raised e, self1)
  | (Returned _, self2) =>
      let '(start_events, self3) := _get_starting_events self2 in
      let '(end_events, self4) := _get_ending_events self3 in
      let all_events := start_events ++ end_events in
      (Returned (or_None all_events), self4)
  end.

(** The tracker after a sequence of calls, whatever each call did. *)
Definition run (self : RoIBusinessLogic) (frames : list Detection)
    : RoIBusinessLogic :=
  foldl (λ s d, (process s d).2) self frames.

(** What the calls of a sequence return or raise, one after the other. *)
Fixpoint outputs (self : RoIBusinessLogic) (frames : list Detection)
    : list (Outcome (option (list Signal))) :=
  match frames with
  | [] => []
  | d :: frames' => (process self d).1 :: outputs (process self d).2 frames'
  end.

(** The signals [starting_loop] appends, each with the class it is
    for: the same loop, keeping the key (see [starting_loop_trace] and
    [starting_trace_sound]). *)
Fixpoint starting_trace (items : list (string * Event))
    (self : RoIBusinessLogic) : list (string * Signal) :=
  match items with
  | [] => []
  | (k, event) :: items' =>
      if _is_start_event self k event then
        let event_id := uuid4 (uuid_calls self) in
        (k, EventStartedSignal event_id (detection event))
        :: starting_trace items'
             (with_active_events (<[k := event_id]> (_active_events self))
                (tick_uuid self))
      else starting_trace items' self
  end.

(** The signals [ending_loop] appends, each with the class it is for
    (see [ending_loop_trace] and [ending_trace_sound]). *)
Fixpoint ending_trace (items : list (string * Event))
    (self : RoIBusinessLogic) : list (string * Signal) :=
  match items with
  | [] => []
  | (k, event) :: items' =>
      if negb (is_expired event) then ending_trace items' self
      else if _is_end_event self k then
        match _active_events self !! k with
        | Some event_id =>
            (k, EventEndedSignal event_id (detection event))
            :: ending_trace items'
                 (with_active_events (delete k (_active_events self)) self)
        | None => ending_trace items' self
        end
      else ending_trace items' self
  end.

(** The Started signals of the call [process self detection], each with
    its class, in the order of emission (see [process_result_traces]). *)
Definition start_trace (self : RoIBusinessLogic) (detection : Detection)
    : list (string * Signal) :=
  match track self detection with
  | (Raised _, _) => []
  | (Returned _, self2) => starting_trace (Dict.items (_event_dict self2)) self2
  end.

(** The Ended signals of the call [process self detection], each with its
    class, in the order of emission. *)
Definition end_trace (self : RoIBusinessLogic) (detection : Detection)
    : list (string * Signal) :=
  match track self detection with
  | (Raised _, _) => []
  | (Returned _, self2) =>
      let self3 := (_get_starting_events self2).2 in
      ending_trace (Dict.items (_event_dict self3)) self3
  end.

(** The classes for which the call emits a Started signal. *)
Definition started_classes (self : RoIBusinessLogic) (detection : Detection)
    : list string :=
  (start_trace self detection).*1.

(** The classes for which the call emits an Ended signal. *)
Definition ended_classes (self : RoIBusinessLogic) (detection : Detection)
    : list string :=
  (end_trace self detection).*1.

(** The event a class has when the signals of the call are computed,
    that is after the two loops of [process]. *)
Definition tracked (self : RoIBusinessLogic) (detection : Detection)
    (k : string) : option Event :=
  Dict.get k (_event_dict (track self detection).2).

(** The first loop of [process] on a payload whose predictions all have a
    class identifier (see [update_loop_ok]). *)
Definition update_steps (d : Detection) (cs : list string)
    (self : RoIBusinessLogic) : RoIBusinessLogic :=
  foldl (λ s c, update_step d c s) self cs.

(** The local variables [start_events] and [end_events] of the call
    [process self detection]. *)
Definition start_events (self : RoIBusinessLogic) (detection : Detection)
    : list Signal :=
  (_get_starting_events (track self detection).2).1.

Definition end_events (self : RoIBusinessLogic) (detection : Detection)
    : list Signal :=
  (_get_ending_events (_get_starting_events (track self detection).2).2).1.

(** What holds of the tracker between calls: the dict holds a key once,
    each event carries the tracker's time-to-live and has not more than
    that left, and an active class has an event that is not expired. *)
Definition Inv (self : RoIBusinessLogic) : Prop :=
  Dict.wf (_event_dict self)
  ∧ (∀ k e, Dict.get k (_event_dict self) = Some e →
            ttl e = _ttl self ∧ current_ttl e ≤ ttl e)
  ∧ (∀ k, is_Some (_active_events self !! k) →
          ∃ e, Dict.get k (_event_dict self) = Some e ∧ 1 ≤ current_ttl e).

(** A payload with all its keys in which class [c] occurs [n] times. *)
Definition occurs (n : nat) (c : string) (d : Detection) : Prop :=
  ∃ cs, frame_classes d = Some cs ∧ times c cs = n.

(** Where a class stands after [j] frames without it, when it was active
    with [r] frames left to live: counting down, or forgotten. *)
Definition counting_down (c : string) (r j : nat) (st : RoIBusinessLogic)
    : Prop :=
  ((j < r)%nat →
     current_ttl <$> Dict.get c (_event_dict st) = Some (Z.of_nat r - Z.of_nat j)
     ∧ is_Some (_active_events st !! c))
  ∧ ((r ≤ j)%nat →
     Dict.get c (_event_dict st) = None ∧ _active_events st !! c = None).

(** ** More notions about the tracker *)

Definition event_id_of (s : Signal) : string :=
  match s with
  | EventStartedSignal event_id _ => event_id
  | EventEndedSignal event_id _ => event_id
  end.

(** How many frames a class counts before a call: 0 when it has no
    event. *)
Definition counted (self : RoIBusinessLogic) (c : string) : Z :=
  match Dict.get c (_event_dict self) with
  | Some e => num_detected_frames e
  | None => 0
  end.

Definition is_new_detection (c : EventCall) : bool :=
  match c with
  | NoDetection => false
  | NewDetection _ => true
  end.

(** How many of the calls are [new_detection]. *)
Definition new_detections (cs : list EventCall) : nat :=
  length (filter (λ c, is_new_detection c = true) cs).

(** Every tracked class that has been detected often enough is active. *)
Definition counted_active (self : RoIBusinessLogic) : Prop :=
  ∀ k e, Dict.get k (_event_dict self) = Some e →
         _total_frames self ≤ num_detected_frames e →
         is_Some (_active_events self !! k).

Definition detection_of (s : Signal) : Detection :=
  match s with
  | EventStartedSignal _ detection => detection
  | EventEndedSignal _ detection => detection
  end.

(** A signal is that of class [k] in a call when it carries the
    detection of the event the class has when the signals of the call are
    computed, and the identifier found under the class in
    [_active_events] when [_get_starting_events] has returned. *)
Definition recorded (self : RoIBusinessLogic) (detection0 : Detection)
    (k : string) (s : Signal) : Prop :=
  ∃ e, tracked self detection0 k = Some e
    ∧ detection_of s = detection e
    ∧ _active_events (_get_starting_events (track self detection0).2).2 !! k
      = Some (event_id_of s).

(** [Pipeline.process_detection] *)
Definition process_detection {E : Type}
    (roi_process : Detection → Result E Detection)
    (self : Pipeline) (detection : Detection)
    : Result (Failure E) (option (list Signal)) * Pipeline :=
  match predictions detection with
  | None => (Failed (PyError KeyError), self)
  | Some preds =>
      match alerta preds (stdout self) with
      | (Raised e, out) =>
          (Failed (PyError e), mkPipeline (_business_logic self) out)
      | (Returned _, out) =>
          match roi_process detection with
          | Failed e =>
              (Failed (FilterError e), mkPipeline (_business_logic self) out)
          | Done detection' =>
              match process (_business_logic self) detection' with
              | (Raised e, logic) => (Failed (PyError e), mkPipeline logic out)
              | (Returned event, logic) => (Done event, mkPipeline logic out)
              end
          end
      end
  end.

(** ** Facts about the dict operations *)

Lemma get_Some_elem {V} (d : Dict.t V) k v :
  Dict.get k d = Some v → (k, v) ∈ d.
Proof.
  induction d as [|[k' v'] d IH]; simpl; [done|].
  case_decide; intros; simplify_eq; [left | right; auto].
Qed.

Lemma get_None_keys {V} (d : Dict.t V) k :
  Dict.get k d = None ↔ k ∉ Dict.keys d.
Proof.
  unfold Dict.keys. induction d as [|[k' v'] d IH]; simpl.
  - split; [intros _; apply not_elem_of_nil | done].
  - rewrite not_elem_of_cons. case_decide; subst; [split; [done | tauto]|].
    rewrite IH. tauto.
Qed.

Lemma get_is_Some_keys {V} (d : Dict.t V) k :
  is_Some (Dict.get k d) ↔ k ∈ Dict.keys d.
Proof.
  destruct (Dict.get k d) eqn:E.
  - split; [intros _ | eauto]. apply get_Some_elem in E.
    unfold Dict.keys. apply list_elem_of_fmap. by exists (k, v).
  - apply get_None_keys in E. split; [by intros [? ?] | done].
Qed.

Lemma elem_get_Some {V} (d : Dict.t V) k v :
  Dict.wf d → (k, v) ∈ d → Dict.get k d = Some v.
Proof.
  unfold Dict.wf, Dict.keys. induction d as [|[k' v'] d IH]; simpl.
  - intros _ H. by apply elem_of_nil in H.
  - rewrite NoDup_cons. intros [Hk Hd] [H|H]%elem_of_cons; simplify_eq.
    + by rewrite decide_True.
    + rewrite decide_False; [auto|]. intros ->. apply Hk.
      apply list_elem_of_fmap. by exists (k', v).
Qed.

Lemma mem_true {V} (d : Dict.t V) k :
  Dict.mem k d = true ↔ is_Some (Dict.get k d).
Proof.
  unfold Dict.mem. destruct (Dict.get k d); split; eauto; try done.
Qed.

Lemma get_set {V} (d : Dict.t V) k k' v :
  Dict.get k' (Dict.set k v d) = if decide (k = k') then Some v else Dict.get k' d.
Proof.
  induction d as [|[k0 v0] d IH]; simpl.
  - repeat case_decide; simplify_eq; done.
  - repeat (case_decide; simpl; simplify_eq; try done).
    all: rewrite IH; by repeat (case_decide; simplify_eq).
Qed.

Lemma get_alter {V} (f : V → V) (d : Dict.t V) k k' :
  Dict.get k' (Dict.alter f k d)
  = if decide (k = k') then f <$> Dict.get k' d else Dict.get k' d.
Proof.
  induction d as [|[k0 v0] d IH]; simpl.
  - by case_decide.
  - repeat (case_decide; simpl; simplify_eq; try done).
    all: rewrite IH; by repeat (case_decide; simplify_eq).
Qed.

Lemma get_del_ne {V} (d : Dict.t V) k k' :
  k ≠ k' → Dict.get k' (Dict.del k d) = Dict.get k' d.
Proof.
  intros Hne. induction d as [|[k0 v0] d IH]; simpl; [done|].
  repeat (case_decide; simpl; simplify_eq; try done).
Qed.

Lemma get_del_eq {V} (d : Dict.t V) k :
  Dict.wf d → Dict.get k (Dict.del k d) = None.
Proof.
  unfold Dict.wf, Dict.keys. induction d as [|[k0 v0] d IH]; simpl; [done|].
  rewrite NoDup_cons. intros [Hk Hd].
  case_decide; simplify_eq.
  - by apply get_None_keys.
  - simpl. rewrite decide_False by done. auto.
Qed.

Lemma keys_alter {V} (f : V → V) (d : Dict.t V) k :
  Dict.keys (Dict.alter f k d) = Dict.keys d.
Proof.
  unfold Dict.keys. induction d as [|[k0 v0] d IH]; [done|].
  cbn [Dict.alter]. case_decide; rewrite !fmap_cons; [done | by rewrite IH].
Qed.

Lemma keys_set {V} (d : Dict.t V) k v :
  Dict.keys (Dict.set k v d)
  = if Dict.mem k d then Dict.keys d else Dict.keys d ++ [k].
Proof.
  unfold Dict.keys, Dict.mem. induction d as [|[k0 v0] d IH]; [done|].
  cbn [Dict.set Dict.get]. case_decide; rewrite !fmap_cons; [done|].
  rewrite IH. by destruct (Dict.get k d).
Qed.

Lemma keys_del_sub {V} (d : Dict.t V) k :
  sublist (Dict.keys (Dict.del k d)) (Dict.keys d).
Proof.
  unfold Dict.keys. induction d as [|[k0 v0] d IH]; [done|].
  cbn [Dict.del]. case_decide; rewrite !fmap_cons;
    [by apply sublist_cons | by apply sublist_skip].
Qed.

Lemma wf_alter {V} (f : V → V) (d : Dict.t V) k :
  Dict.wf d → Dict.wf (Dict.alter f k d).
Proof. unfold Dict.wf. by rewrite keys_alter. Qed.

Lemma wf_set {V} (d : Dict.t V) k v : Dict.wf d → Dict.wf (Dict.set k v d).
Proof.
  unfold Dict.wf. rewrite keys_set. destruct (Dict.mem k d) eqn:E; [done|].
  intros Hd. apply NoDup_app. split_and!; [done| |apply NoDup_singleton].
  intros x Hx ->%list_elem_of_singleton.
  apply get_is_Some_keys, mem_true in Hx. congruence.
Qed.

Lemma wf_del {V} (d : Dict.t V) k : Dict.wf d → Dict.wf (Dict.del k d).
Proof. unfold Dict.wf. intros. eapply sublist_NoDup; [done | apply keys_del_sub]. Qed.

Lemma get_del {V} (d : Dict.t V) k k' :
  Dict.wf d →
  Dict.get k' (Dict.del k d) = if decide (k = k') then None else Dict.get k' d.
Proof.
  intros. case_decide; subst; [by apply get_del_eq | by apply get_del_ne].
Qed.

(** ** Facts about [times] *)

Lemma times_cons c x l :
  times c (x :: l) = if decide (x = c) then S (times c l) else times c l.
Proof. unfold times. rewrite filter_cons. by case_decide. Qed.

Lemma times_0 c l : times c l = 0%nat ↔ c ∉ l.
Proof.
  induction l as [|x l IH]; [split; [intros _; apply not_elem_of_nil | done]|].
  rewrite times_cons, not_elem_of_cons. case_decide; subst.
  - split; [done | tauto].
  - rewrite IH. split; [by split | tauto].
Qed.

Lemma times_NoDup c l :
  NoDup l → times c l = if decide (c ∈ l) then 1%nat else 0%nat.
Proof.
  induction 1 as [|x l Hx Hl IH]; [done|].
  rewrite times_cons. destruct (decide (x = c)) as [->|Hne].
  - rewrite decide_True by (apply elem_of_cons; auto).
    by rewrite (proj2 (times_0 _ _)).
  - rewrite IH. destruct (decide (c ∈ l)) as [Hin|Hout].
    + rewrite decide_True; [done | apply elem_of_cons; auto].
    + rewrite decide_False; [done|]. rewrite elem_of_cons.
      intros [?|?]; congruence.
Qed.

(** ** The first loop of [process] *)

Lemma update_loop_ok d preds cs cur st :
  mapM classId preds = Some cs →
  update_loop d preds cur st
  = (Returned (cur ∪ list_to_set cs), update_steps d cs st).
Proof.
  rewrite mapM_Some. intros H. revert cur st.
  induction H as [|p c preds cs Hc H IH]; intros cur st.
  - cbn. by rewrite (right_id_L ∅ (∪)).
  - cbn [update_loop]. rewrite Hc, IH.
    cbn [list_to_set update_steps foldl]. by rewrite (assoc_L (∪)).
Qed.

Lemma update_step_fields d c st :
  _total_frames (update_step d c st) = _total_frames st
  ∧ _active_events (update_step d c st) = _active_events st
  ∧ _ttl (update_step d c st) = _ttl st
  ∧ uuid_calls (update_step d c st) = uuid_calls st.
Proof. unfold update_step. by destruct (Dict.mem c (_event_dict st)). Qed.

Lemma update_steps_fields d cs st :
  _total_frames (update_steps d cs st) = _total_frames st
  ∧ _active_events (update_steps d cs st) = _active_events st
  ∧ _ttl (update_steps d cs st) = _ttl st
  ∧ uuid_calls (update_steps d cs st) = uuid_calls st.
Proof.
  revert st. induction cs as [|c cs IH]; intros st; [done|].
  change (update_steps d (c :: cs) st)
    with (update_steps d cs (update_step d c st)).
  destruct (IH (update_step d c st)) as (-> & -> & -> & ->).
  apply update_step_fields.
Qed.

Lemma update_step_get d c st k :
  Dict.get k (_event_dict (update_step d c st))
  = if decide (c = k) then
      Some (match Dict.get k (_event_dict st) with
            | Some e => new_detection d e
            | None => Event_init d (_ttl st) (time_time (time_calls st))
            end)
    else Dict.get k (_event_dict st).
Proof.
  unfold update_step, Dict.mem.
  destruct (Dict.get c (_event_dict st)) eqn:E; cbn.
  - rewrite get_alter. case_decide; subst; [by rewrite E | done].
  - rewrite get_set. case_decide; subst; [by rewrite E | done].
Qed.

Lemma update_step_wf d c st :
  Dict.wf (_event_dict st) → Dict.wf (_event_dict (update_step d c st)).
Proof.
  unfold update_step. destruct (Dict.mem c (_event_dict st)); cbn.
  - apply wf_alter.
  - apply wf_set.
Qed.

Lemma update_steps_wf d cs st :
  Dict.wf (_event_dict st) → Dict.wf (_event_dict (update_steps d cs st)).
Proof.
  revert st. induction cs as [|c cs IH]; intros st H; [done|].
  change (update_steps d (c :: cs) st)
    with (update_steps d cs (update_step d c st)).
  by apply IH, update_step_wf.
Qed.

Lemma update_steps_get_absent d cs st k :
  k ∉ cs →
  Dict.get k (_event_dict (update_steps d cs st)) = Dict.get k (_event_dict st).
Proof.
  revert st. induction cs as [|c cs IH]; intros st H; [done|].
  apply not_elem_of_cons in H as [Hne H].
  change (update_steps d (c :: cs) st)
    with (update_steps d cs (update_step d c st)).
  rewrite IH by done.
  rewrite update_step_get. by rewrite decide_False.
Qed.

(** What the loop leaves under a class that occurs [n > 0] times among
    the predictions: one event, fed [n] times. *)
Lemma update_steps_get_present d cs st k :
  (0 < times k cs)%nat →
  ∃ e', Dict.get k (_event_dict (update_steps d cs st)) = Some e'
    ∧ detection e' = d
    ∧ current_ttl e' = ttl e'
    ∧ match Dict.get k (_event_dict st) with
      | Some e =>
          num_detected_frames e' = num_detected_frames e + Z.of_nat (times k cs)
          ∧ ttl e' = ttl e ∧ creation_time e' = creation_time e
      | None =>
          num_detected_frames e' = Z.of_nat (times k cs) ∧ ttl e' = _ttl st
      end.
Proof.
  revert st. induction cs as [|c cs IH]; intros st H; [by cbn in H; lia|].
  rewrite times_cons in H |- *.
  change (update_steps d (c :: cs) st)
    with (update_steps d cs (update_step d c st)).
  destruct (update_step_fields d c st) as (_ & _ & Httl & _).
  pose proof (update_step_get d c st k) as Hstep.
  destruct (decide (k ∈ cs)) as [Hin|Hout].
  - assert (0 < times k cs)%nat as Hpos.
    { destruct (times k cs) eqn:E; [by apply times_0 in E | lia]. }
    destruct (IH (update_step d c st) Hpos) as (e' & -> & Hd & Hc & Hm).
    exists e'. split_and!; try done.
    rewrite Hstep in Hm. clear Hstep.
    destruct (decide (c = k)) as [->|Hne].
    + destruct (Dict.get k (_event_dict st)); cbn in Hm; split_and!;
        try tauto; lia.
    + destruct (Dict.get k (_event_dict st)); [done|]. by rewrite <- Httl.
  - rewrite update_steps_get_absent by done. rewrite Hstep.
    apply times_0 in Hout. rewrite Hout in H |- *.
    destruct (decide (c = k)) as [->|Hne]; [|lia].
    eexists; split; [done|].
    destruct (Dict.get k (_event_dict st)); cbn; split_and!; try done; lia.
Qed.

(** ** The second loop of [process] *)

Lemma decay_loop_cons x l d :
  decay_loop (x :: l) d = decay_loop l (Dict.alter no_detection x d).
Proof. done. Qed.

(** Each class of the set is decremented once, whatever the order in
    which the set is listed. *)
Lemma decay_loop_get l d k :
  NoDup l →
  Dict.get k (decay_loop l d)
  = if decide (k ∈ l) then no_detection <$> Dict.get k d else Dict.get k d.
Proof.
  intros Hl. revert d. induction Hl as [|x l Hx Hl IH]; intros d; [done|].
  rewrite decay_loop_cons, IH, get_alter.
  destruct (decide (x = k)) as [->|Hne].
  - rewrite decide_False by done.
    by rewrite decide_True by (apply elem_of_cons; auto).
  - destruct (decide (k ∈ l)) as [Hin|Hout].
    + by rewrite decide_True by (apply elem_of_cons; auto).
    + rewrite decide_False; [done|]. rewrite elem_of_cons.
      intros [?|?]; congruence.
Qed.

Lemma decay_loop_keys l d : Dict.keys (decay_loop l d) = Dict.keys d.
Proof.
  revert d. induction l as [|x l IH]; intros d; [done|].
  by rewrite decay_loop_cons, IH, keys_alter.
Qed.

Lemma track_ok st d cs :
  frame_classes d = Some cs →
  ∃ st2, track st d = (Returned (), st2)
    ∧ _total_frames st2 = _total_frames st
    ∧ _active_events st2 = _active_events st
    ∧ _ttl st2 = _ttl st
    ∧ uuid_calls st2 = uuid_calls st
    ∧ (Dict.wf (_event_dict st) → Dict.wf (_event_dict st2))
    ∧ ∀ k, Dict.get k (_event_dict st2)
           = if decide (k ∈ cs)
             then Dict.get k (_event_dict (update_steps d cs st))
             else no_detection <$> Dict.get k (_event_dict st).
Proof.
  unfold frame_classes, track. intros H.
  destruct (predictions d) as [preds|]; [cbn in H | done].
  rewrite (update_loop_ok _ _ cs) by done.
  destruct (update_steps_fields d cs st) as (Ht & Ha & Hl & Hu).
  eexists; split; [done|]. cbn. split_and!; try done.
  - intros Hwf. unfold Dict.wf. rewrite decay_loop_keys.
    by apply update_steps_wf.
  - intros k. rewrite decay_loop_get by apply NoDup_elements.
    destruct (decide (k ∈ cs)) as [Hin|Hout].
    + rewrite decide_False; [done|].
      rewrite elem_of_elements, elem_of_difference, elem_of_union,
        !elem_of_list_to_set.
      tauto.
    + rewrite update_steps_get_absent by done.
      destruct (Dict.get k (_event_dict st)) eqn:E.
      * rewrite decide_True; [done|].
        rewrite elem_of_elements, elem_of_difference, elem_of_union,
          !elem_of_list_to_set.
        split.
        -- apply get_is_Some_keys. rewrite update_steps_get_absent by done.
           by rewrite E.
        -- intros [H'|H']; [by apply elem_of_empty in H' | done].
      * by case_decide.
Qed.

Lemma track_no_predictions st d :
  predictions d = None → track st d = (Raised KeyError, st).
Proof. unfold track. by intros ->. Qed.

(** ** [_get_starting_events] *)

Lemma is_start_event_true st k e :
  _is_start_event st k e = true
  ↔ _total_frames st ≤ num_detected_frames e ∧ _active_events st !! k = None.
Proof.
  unfold _is_start_event.
  destruct (Z.ltb_spec (num_detected_frames e) (_total_frames st)).
  - split; [done | lia].
  - case_bool_decide as Ha.
    + split; [done|]. intros [_ Hn]. rewrite Hn in Ha. by destruct Ha.
    + split; [|done]. intros _. split; [done|].
      by apply eq_None_not_Some.
Qed.

Lemma starting_loop_trace items evs st :
  (starting_loop items evs st).1 = evs ++ (starting_trace items st).*2.
Proof.
  revert evs st. induction items as [|[k e] items IH]; intros evs st.
  - cbn. by rewrite app_nil_r.
  - cbn [starting_loop starting_trace].
    destruct (_is_start_event st k e); [|done].
    rewrite IH, fmap_cons. cbn. by rewrite <- app_assoc.
Qed.

Lemma starting_trace_started items st :
  Forall (λ s, is_started s = true) (starting_trace items st).*2.
Proof.
  revert st. induction items as [|[k e] items IH]; intros st.
  - constructor.
  - cbn [starting_trace]. destruct (_is_start_event st k e); [|done].
    rewrite fmap_cons. by constructor.
Qed.

Lemma starting_loop_fields items evs st :
  let st' := (starting_loop items evs st).2 in
  _total_frames st' = _total_frames st
  ∧ _event_dict st' = _event_dict st
  ∧ _ttl st' = _ttl st
  ∧ time_calls st' = time_calls st.
Proof.
  revert evs st. induction items as [|[k e] items IH]; intros evs st; [done|].
  cbn [starting_loop]. destruct (_is_start_event st k e); [|apply IH].
  cbn zeta. edestruct IH as (-> & -> & -> & ->). done.
Qed.

(** After the loop a class is active iff it was, or one of its events
    has been detected often enough. *)
Lemma starting_loop_active items evs st k :
  is_Some (_active_events (starting_loop items evs st).2 !! k)
  ↔ is_Some (_active_events st !! k)
    ∨ ∃ e, (k, e) ∈ items ∧ _total_frames st ≤ num_detected_frames e.
Proof.
  revert evs st. induction items as [|[k' e'] items IH]; intros evs st.
  - cbn. split; [auto|]. intros [?|(e & He & _)]; [done|].
    by apply elem_of_nil in He.
  - cbn [starting_loop].
    destruct (_is_start_event st k' e') eqn:E.
    + apply is_start_event_true in E as [HN Hk']. rewrite IH. cbn.
      rewrite lookup_insert. split.
      * intros [Ha|(e & He & Hc)].
        -- case_decide; subst; [right | by left].
           exists e'. split; [apply elem_of_cons; auto | done].
        -- right. exists e. split; [apply elem_of_cons; auto | done].
      * intros [Ha|(e & He & Hc)].
        -- left. case_decide; [eauto | done].
        -- apply elem_of_cons in He as [He|He]; simplify_eq.
           ++ left. rewrite decide_True by done. eauto.
           ++ right. eauto.
    + rewrite IH. split.
      * intros [Ha|(e & He & Hc)]; [by left|].
        right. exists e. split; [apply elem_of_cons; auto | done].
      * intros [Ha|(e & He & Hc)]; [by left|].
        apply elem_of_cons in He as [He|He]; simplify_eq; [|right; eauto].
        left. destruct (_active_events st !! k') eqn:Ek; [eauto|].
        assert (_is_start_event st k' e' = true) as E'
          by by apply is_start_event_true.
        congruence.
Qed.

(** A Started signal is emitted for exactly the classes that were not
    active and have an event detected often enough. *)
Lemma starting_trace_keys items st k :
  k ∈ (starting_trace items st).*1
  ↔ _active_events st !! k = None
    ∧ ∃ e, (k, e) ∈ items ∧ _total_frames st ≤ num_detected_frames e.
Proof.
  revert st. induction items as [|[k' e'] items IH]; intros st.
  - cbn. split; [by intros ?%elem_of_nil|]. intros (_ & e & He & _).
    by apply elem_of_nil in He.
  - cbn [starting_trace].
    destruct (_is_start_event st k' e') eqn:E.
    + apply is_start_event_true in E as [HN Hk'].
      rewrite fmap_cons, elem_of_cons, IH. cbn. rewrite lookup_insert.
      split.
      * intros [->|(Ha & e & He & Hc)].
        -- split; [done|]. exists e'. split; [apply elem_of_cons; auto|done].
        -- case_decide; [done|]. split; [done|].
           exists e. split; [apply elem_of_cons; auto | done].
      * intros (Ha & e & He & Hc).
        destruct (decide (k' = k)) as [->|Hne]; [by left | right].
        split; [done|].
        apply elem_of_cons in He as [He|He]; simplify_eq. eauto.
    + rewrite IH. split.
      * intros (Ha & e & He & Hc). split; [done|].
        exists e. split; [apply elem_of_cons; auto | done].
      * intros (Ha & e & He & Hc). split; [done|].
        apply elem_of_cons in He as [He|He]; simplify_eq; [|eauto].
        assert (_is_start_event st k' e' = true) as E'
          by by apply is_start_event_true.
        congruence.
Qed.

Lemma starting_trace_NoDup items st :
  NoDup (starting_trace items st).*1.
Proof.
  revert st. induction items as [|[k e] items IH]; intros st.
  - constructor.
  - cbn [starting_trace]. destruct (_is_start_event st k e); [|done].
    rewrite fmap_cons. constructor; [|done].
    rewrite starting_trace_keys. cbn. rewrite lookup_insert_eq.
    by intros [? _].
Qed.

(** ** [_get_ending_events] *)

(** [_is_end_event] is the test [key in self._active_events], so the
    subscript that follows it in the loop finds the key. *)
Lemma is_end_event_lookup st k :
  _is_end_event st k = true ↔ is_Some (_active_events st !! k).
Proof.
  unfold _is_end_event. case_bool_decide; cbn; split; done.
Qed.

Lemma ending_loop_trace items evs dels st :
  (ending_loop items evs dels st).1.1 = evs ++ (ending_trace items st).*2.
Proof.
  revert evs dels st. induction items as [|[k e] items IH]; intros evs dels st.
  - cbn. by rewrite app_nil_r.
  - cbn [ending_loop ending_trace].
    destruct (is_expired e); cbn [negb]; [|done].
    destruct (_is_end_event st k); [|done].
    destruct (_active_events st !! k); [|done].
    rewrite IH, fmap_cons. cbn. by rewrite <- app_assoc.
Qed.

Lemma ending_trace_ended items st :
  Forall (λ s, is_ended s = true) (ending_trace items st).*2.
Proof.
  revert st. induction items as [|[k e] items IH]; intros st.
  - constructor.
  - cbn [ending_trace]. destruct (is_expired e); cbn [negb]; [|done].
    destruct (_is_end_event st k); [|done].
    destruct (_active_events st !! k); [|done].
    rewrite fmap_cons. by constructor.
Qed.

(** [del_events] receives the keys of the expired events, all of them. *)
Lemma ending_loop_del_events items evs dels st k :
  k ∈ (ending_loop items evs dels st).1.2
  ↔ k ∈ dels ∨ ∃ e, (k, e) ∈ items ∧ is_expired e = true.
Proof.
  revert evs dels st. induction items as [|[k' e'] items IH]; intros evs dels st.
  - cbn. split; [auto|]. intros [?|(e & He & _)]; [done|].
    by apply elem_of_nil in He.
  - cbn [ending_loop]. destruct (is_expired e') eqn:Ex; cbn [negb].
    + assert (∀ evs' st',
        k ∈ (ending_loop items evs' (dels ++ [k']) st').1.2
        ↔ k ∈ dels ∨ ∃ e, (k, e) ∈ (k', e') :: items ∧ is_expired e = true)
        as Hdel.
      { intros evs' st'. rewrite IH, elem_of_app, list_elem_of_singleton.
        split.
        - intros [[?| ->]|(e & He & Hx)]; [by left | |].
          + right. exists e'. split; [apply elem_of_cons; auto | done].
          + right. exists e. split; [apply elem_of_cons; auto | done].
        - intros [?|(e & He & Hx)]; [by left; left|].
          apply elem_of_cons in He as [He|He]; simplify_eq; [by left; right|].
          right. eauto. }
      destruct (_is_end_event st k'); [|apply Hdel].
      destruct (_active_events st !! k'); apply Hdel.
    + rewrite IH. split.
      * intros [?|(e & He & Hx)]; [by left|].
        right. exists e. split; [apply elem_of_cons; auto | done].
      * intros [?|(e & He & Hx)]; [by left|].
        apply elem_of_cons in He as [He|He]; simplify_eq; [congruence|].
        right. eauto.
Qed.

Lemma ending_loop_fields items evs dels st :
  let st' := (ending_loop items evs dels st).2 in
  _total_frames st' = _total_frames st
  ∧ _event_dict st' = _event_dict st
  ∧ _ttl st' = _ttl st
  ∧ uuid_calls st' = uuid_calls st
  ∧ time_calls st' = time_calls st.
Proof.
  revert evs dels st. induction items as [|[k e] items IH]; intros evs dels st;
    [done|].
  cbn [ending_loop]. destruct (is_expired e); cbn [negb]; [|apply IH].
  destruct (_is_end_event st k); [|apply IH].
  destruct (_active_events st !! k); [|apply IH].
  cbn zeta. edestruct IH as (-> & -> & -> & -> & ->). done.
Qed.

(** After the loop a class is active iff it was and none of its events
    is expired. *)
Lemma ending_loop_active items evs dels st k :
  is_Some (_active_events (ending_loop items evs dels st).2 !! k)
  ↔ is_Some (_active_events st !! k)
    ∧ ¬ ∃ e, (k, e) ∈ items ∧ is_expired e = true.
Proof.
  revert evs dels st. induction items as [|[k' e'] items IH]; intros evs dels st.
  - cbn. split; [|tauto]. intros Ha. split; [done|]. intros (e & He & _).
    by apply elem_of_nil in He.
  - assert ((¬ ∃ e, (k, e) ∈ (k', e') :: items ∧ is_expired e = true)
            ↔ ¬ (k = k' ∧ is_expired e' = true)
              ∧ ¬ ∃ e, (k, e) ∈ items ∧ is_expired e = true) as ->.
    { split.
      - intros Hn. split.
        + intros [-> Hx]. apply Hn. exists e'.
          split; [apply elem_of_cons; auto | done].
        + intros (e & He & Hx). apply Hn. exists e.
          split; [apply elem_of_cons; auto | done].
      - intros [Hn1 Hn2] (e & He & Hx).
        apply elem_of_cons in He as [He|He]; simplify_eq; [tauto|].
        apply Hn2. eauto. }
    cbn [ending_loop]. destruct (is_expired e') eqn:Ex; cbn [negb].
    + destruct (_is_end_event st k') eqn:Ee.
      * apply is_end_event_lookup in Ee as [event_id Ee]. rewrite Ee, IH.
        cbn. rewrite lookup_delete.
        destruct (decide (k' = k)) as [->|Hne].
        -- split; [by intros [[? ?] _] | tauto].
        -- split; [intros [? ?]; split_and!; try done; intros [? _]; congruence
                  | tauto].
      * assert (_active_events st !! k' = None) as Hk'.
        { apply eq_None_not_Some. intros Hs.
          apply is_end_event_lookup in Hs. congruence. }
        rewrite IH. split; [|tauto].
        intros [Ha Hn]. split_and!; try done.
        intros [-> _]. rewrite Hk' in Ha. by destruct Ha.
    + rewrite IH. split; [|tauto].
      intros [Ha Hn]. split_and!; try done. intros [_ ?]; congruence.
Qed.

(** An Ended signal is emitted for exactly the active classes that have
    an expired event. *)
Lemma ending_trace_keys items st k :
  k ∈ (ending_trace items st).*1
  ↔ is_Some (_active_events st !! k)
    ∧ ∃ e, (k, e) ∈ items ∧ is_expired e = true.
Proof.
  revert st. induction items as [|[k' e'] items IH]; intros st.
  - cbn. split; [by intros ?%elem_of_nil|]. intros (_ & e & He & _).
    by apply elem_of_nil in He.
  - cbn [ending_trace]. destruct (is_expired e') eqn:Ex; cbn [negb].
    + destruct (_is_end_event st k') eqn:Ee.
      * apply is_end_event_lookup in Ee as [event_id Ee]. rewrite Ee.
        rewrite fmap_cons, elem_of_cons, IH. cbn. rewrite lookup_delete.
        split.
        -- intros [->|(Ha & e & He & Hx)].
           ++ split; [eauto|]. exists e'.
              split; [apply elem_of_cons; auto | done].
           ++ case_decide; [by destruct Ha|]. split; [done|].
              exists e. split; [apply elem_of_cons; auto | done].
        -- intros (Ha & e & He & Hx).
           destruct (decide (k' = k)) as [->|Hne]; [by left | right].
           split; [done|].
           apply elem_of_cons in He as [He|He]; simplify_eq. eauto.
      * assert (_active_events st !! k' = None) as Hk'.
        { apply eq_None_not_Some. intros Hs.
          apply is_end_event_lookup in Hs. congruence. }
        rewrite IH. split.
        -- intros (Ha & e & He & Hx). split; [done|].
           exists e. split; [apply elem_of_cons; auto | done].
        -- intros (Ha & e & He & Hx). split; [done|].
           apply elem_of_cons in He as [He|He]; simplify_eq; [|eauto].
           rewrite Hk' in Ha. by destruct Ha.
    + rewrite IH. split.
      * intros (Ha & e & He & Hx). split; [done|].
        exists e. split; [apply elem_of_cons; auto | done].
      * intros (Ha & e & He & Hx). split; [done|].
        apply elem_of_cons in He as [He|He]; simplify_eq; [congruence|eauto].
Qed.

Lemma ending_trace_NoDup items st :
  NoDup (ending_trace items st).*1.
Proof.
  revert st. induction items as [|[k e] items IH]; intros st.
  - constructor.
  - cbn [ending_trace]. destruct (is_expired e); cbn [negb]; [|done].
    destruct (_is_end_event st k); [|done].
    destruct (_active_events st !! k); [|done].
    rewrite fmap_cons. constructor; [|done].
    rewrite ending_trace_keys. cbn. rewrite lookup_delete_eq.
    by intros [[? ?] _].
Qed.

Lemma delete_loop_wf ks d : Dict.wf d → Dict.wf (delete_loop ks d).
Proof.
  revert d. induction ks as [|k ks IH]; intros d Hd; [done|].
  cbn. by apply IH, wf_del.
Qed.

Lemma delete_loop_get ks d k :
  Dict.wf d →
  Dict.get k (delete_loop ks d)
  = if decide (k ∈ ks) then None else Dict.get k d.
Proof.
  revert d. induction ks as [|k' ks IH]; intros d Hd; [done|].
  cbn [delete_loop foldl]. fold (delete_loop ks (Dict.del k' d)).
  rewrite IH by by apply wf_del. rewrite get_del by done.
  destruct (decide (k' = k)) as [->|Hne].
  - rewrite (decide_True (P := k ∈ k :: ks)) by (apply elem_of_cons; auto).
    by case_decide.
  - destruct (decide (k ∈ ks)) as [Hin|Hout].
    + by rewrite decide_True by (apply elem_of_cons; auto).
    + rewrite decide_False; [done|]. rewrite elem_of_cons.
      intros [?|?]; congruence.
Qed.

Lemma get_ending_events_spec st :
  Dict.wf (_event_dict st) →
  let r := _get_ending_events st in
  r.1 = (ending_trace (_event_dict st) st).*2
  ∧ _total_frames r.2 = _total_frames st
  ∧ _ttl r.2 = _ttl st
  ∧ Dict.wf (_event_dict r.2)
  ∧ (∀ k, Dict.get k (_event_dict r.2)
          = e ← Dict.get k (_event_dict st);
            if is_expired e then None else Some e)
  ∧ (∀ k, is_Some (_active_events r.2 !! k)
          ↔ is_Some (_active_events st !! k)
            ∧ ¬ ∃ e, Dict.get k (_event_dict st) = Some e
                     ∧ is_expired e = true).
Proof.
  intros Hwf. unfold _get_ending_events, Dict.items.
  pose proof (ending_loop_trace (_event_dict st) [] [] st) as Htr.
  pose proof (ending_loop_fields (_event_dict st) [] [] st) as Hf.
  pose proof (ending_loop_del_events (_event_dict st) [] [] st) as Hdel.
  pose proof (ending_loop_active (_event_dict st) [] [] st) as Hact.
  destruct (ending_loop (_event_dict st) [] [] st) as [[evs dels] st1].
  cbn in Htr, Hf, Hdel, Hact |- *.
  destruct Hf as (Ht & Hd & Hl & _). rewrite Hd.
  split_and!; try done.
  - by apply delete_loop_wf.
  - intros k. rewrite delete_loop_get by done.
    destruct (Dict.get k (_event_dict st)) as [e|] eqn:E; cbn.
    + destruct (is_expired e) eqn:Ex.
      * rewrite decide_True; [done|]. apply Hdel. right. exists e.
        split; [by apply get_Some_elem | done].
      * rewrite decide_False; [done|]. rewrite Hdel.
        intros [?%elem_of_nil|(e0 & He0 & Hx)]; [done|].
        apply elem_get_Some in He0; [|done]. congruence.
    + by case_decide.
  - intros k. rewrite Hact. split; intros [Ha Hn]; (split; [done|]).
    + intros (e & He & Hx). apply Hn. exists e.
      split; [by apply get_Some_elem | done].
    + intros (e & He & Hx). apply Hn. exists e.
      split; [by apply elem_get_Some | done].
Qed.

(** ** One call of [process] on a payload with all its keys *)

Section Call.

Context (st : RoIBusinessLogic) (d : Detection) (cs : list string).
Hypothesis Hwf : Dict.wf (_event_dict st).
Hypothesis Hcs : frame_classes d = Some cs.

Lemma tracked_get k :
  tracked st d k
  = if decide (k ∈ cs)
    then Dict.get k (_event_dict (update_steps d cs st))
    else no_detection <$> Dict.get k (_event_dict st).
Proof.
  unfold tracked. destruct (track_ok st d cs Hcs) as (st2 & -> & _ & _ & _ & _ & _ & H).
  apply H.
Qed.

Lemma process_state :
  let st4 := (process st d).2 in
  _total_frames st4 = _total_frames st
  ∧ _ttl st4 = _ttl st
  ∧ Dict.wf (_event_dict st4)
  ∧ (∀ k, Dict.get k (_event_dict st4)
          = e ← tracked st d k; if is_expired e then None else Some e)
  ∧ (∀ k, is_Some (_active_events st4 !! k)
          ↔ (is_Some (_active_events st !! k)
             ∨ ∃ e, tracked st d k = Some e
                    ∧ _total_frames st ≤ num_detected_frames e)
            ∧ ¬ ∃ e, tracked st d k = Some e ∧ is_expired e = true).
Proof.
  unfold process, tracked.
  destruct (track_ok st d cs Hcs) as (st2 & -> & Ht & Ha & Hl & _ & Hwf2 & _).
  specialize (Hwf2 Hwf). cbn [snd].
  unfold _get_starting_events, Dict.items.
  pose proof (starting_loop_fields (_event_dict st2) [] st2) as Hf.
  pose proof (starting_loop_active (_event_dict st2) [] st2) as Hact.
  destruct (starting_loop (_event_dict st2) [] st2) as [start_events st3].
  cbn in Hf, Hact. destruct Hf as (Ht3 & Hd3 & Hl3 & _).
  assert (Dict.wf (_event_dict st3)) as Hwf3 by by rewrite Hd3.
  pose proof (get_ending_events_spec st3 Hwf3) as He.
  destruct (_get_ending_events st3) as [end_events st4].
  cbn in He |- *. destruct He as (_ & Ht4 & Hl4 & Hwf4 & Hget & Hact4).
  split_and!; [congruence | congruence | done | |].
  { intros k. rewrite Hget. by rewrite Hd3. }
  intros k. rewrite Hact4, Hact, Hd3, Ha, Ht. split.
  - intros [[?|(e & He & Hc)] Hn]; (split; [|done]); [by left|].
    right. exists e. split; [by apply elem_get_Some | done].
  - intros [[?|(e & He & Hc)] Hn]; (split; [|done]); [by left|].
    right. exists e. split; [by apply get_Some_elem | done].
Qed.

Lemma started_classes_spec k :
  k ∈ started_classes st d
  ↔ _active_events st !! k = None
    ∧ ∃ e, tracked st d k = Some e ∧ _total_frames st ≤ num_detected_frames e.
Proof.
  unfold started_classes, start_trace, tracked.
  destruct (track_ok st d cs Hcs) as (st2 & -> & Ht & Ha & _ & _ & Hwf2 & _).
  specialize (Hwf2 Hwf). cbn [snd].
  rewrite starting_trace_keys, Ha, Ht. unfold Dict.items. split.
  - intros (? & e & He & Hc). split; [done|]. exists e.
    split; [by apply elem_get_Some | done].
  - intros (? & e & He & Hc). split; [done|]. exists e.
    split; [by apply get_Some_elem | done].
Qed.

Lemma ended_classes_spec k :
  k ∈ ended_classes st d
  ↔ (is_Some (_active_events st !! k)
     ∨ ∃ e, tracked st d k = Some e ∧ _total_frames st ≤ num_detected_frames e)
    ∧ ∃ e, tracked st d k = Some e ∧ is_expired e = true.
Proof.
  unfold ended_classes, end_trace, tracked.
  destruct (track_ok st d cs Hcs) as (st2 & -> & Ht & Ha & _ & _ & Hwf2 & _).
  specialize (Hwf2 Hwf). cbn [snd].
  unfold _get_starting_events, Dict.items.
  pose proof (starting_loop_fields (_event_dict st2) [] st2) as Hf.
  pose proof (starting_loop_active (_event_dict st2) [] st2) as Hact.
  destruct (starting_loop (_event_dict st2) [] st2) as [start_events st3].
  cbn in Hf, Hact |- *. destruct Hf as (Ht3 & Hd3 & Hl3 & _).
  rewrite ending_trace_keys, Hact, Hd3, Ha, Ht. split.
  - intros [[?|(e & He & Hc)] (e' & He' & Hx)].
    + split; [by left|]. exists e'. split; [by apply elem_get_Some | done].
    + split; [right; exists e; split; [by apply elem_get_Some | done]|].
      exists e'. split; [by apply elem_get_Some | done].
  - intros [[?|(e & He & Hc)] (e' & He' & Hx)].
    + split; [by left|]. exists e'. split; [by apply get_Some_elem | done].
    + split; [right; exists e; split; [by apply get_Some_elem | done]|].
      exists e'. split; [by apply get_Some_elem | done].
Qed.

Lemma started_classes_NoDup : NoDup (started_classes st d).
Proof.
  unfold started_classes, start_trace.
  destruct (track st d) as [[?|?] ?]; [apply starting_trace_NoDup | constructor].
Qed.

Lemma ended_classes_NoDup : NoDup (ended_classes st d).
Proof.
  unfold ended_classes, end_trace.
  destruct (track st d) as [[?|?] ?]; [apply ending_trace_NoDup | constructor].
Qed.

End Call.

(** ** The invariant of the tracker *)

Lemma Inv_init N L : Inv (RoIBusinessLogic_init N L).
Proof.
  split_and!.
  - constructor.
  - intros k e H. done.
  - intros k [x H]. cbn in H. by rewrite lookup_empty in H.
Qed.

Lemma update_step_Inv d c st : Inv st → Inv (update_step d c st).
Proof.
  intros (Hwf & Hev & Hact).
  destruct (update_step_fields d c st) as (_ & Ha & Hl & _).
  split_and!.
  - by apply update_step_wf.
  - intros k e. rewrite update_step_get, Hl.
    destruct (decide (c = k)) as [->|Hne]; [|apply Hev].
    intros [= <-]. destruct (Dict.get k (_event_dict st)) as [e0|] eqn:E.
    + destruct (Hev k e0 E). cbn. split; [done | lia].
    + cbn. split; [done | lia].
  - intros k. rewrite Ha, update_step_get. intros Hk.
    destruct (Hact k Hk) as (e & He & Hc). rewrite He.
    destruct (decide (c = k)) as [->|Hne]; [|eauto].
    eexists; split; [done|]. destruct (Hev k e He). cbn. lia.
Qed.

(** The first loop keeps the invariant also when it raises half way. *)
Lemma update_loop_Inv d preds cur st :
  Inv st → Inv (update_loop d preds cur st).2.
Proof.
  revert cur st. induction preds as [|p preds IH]; intros cur st H; [done|].
  cbn [update_loop]. destruct (classId p); [|done].
  by apply IH, update_step_Inv.
Qed.

Lemma update_loop_fields d preds cur st :
  _total_frames (update_loop d preds cur st).2 = _total_frames st
  ∧ _ttl (update_loop d preds cur st).2 = _ttl st
  ∧ _active_events (update_loop d preds cur st).2 = _active_events st.
Proof.
  revert cur st. induction preds as [|p preds IH]; intros cur st; [done|].
  cbn [update_loop]. destruct (classId p); [|done].
  destruct (IH (cur ∪ {[s]}) (update_step d s st)) as (-> & -> & ->).
  destruct (update_step_fields d s st) as (? & ? & ? & _). done.
Qed.

Lemma update_loop_returned d preds cur st cur' st' :
  update_loop d preds cur st = (Returned cur', st') →
  ∃ cs, mapM classId preds = Some cs.
Proof.
  revert cur st. induction preds as [|p preds IH]; intros cur st H.
  - by exists [].
  - cbn [update_loop] in H. destruct (classId p) as [c|] eqn:E; [|done].
    destruct (IH _ _ H) as [cs Hcs]. exists (c :: cs).
    apply mapM_Some. apply mapM_Some in Hcs. by constructor.
Qed.

(** A call that returns was given a payload with all its keys. *)
Lemma process_returned st d r st' :
  process st d = (Returned r, st') → ∃ cs, frame_classes d = Some cs.
Proof.
  unfold process, track, frame_classes.
  destruct (predictions d) as [preds|]; [|done]. cbn.
  destruct (update_loop d preds ∅ st) as [[cur|e] st1] eqn:E; [|done].
  intros _. by eapply update_loop_returned.
Qed.

(** A payload with a key missing makes the call raise, and the call
    leaves what the first loop did until then. *)
Lemma process_raised st d :
  frame_classes d = None →
  (process st d).1 = Raised KeyError ∧ (Inv st → Inv (process st d).2).
Proof.
  unfold process, track, frame_classes.
  destruct (predictions d) as [preds|]; cbn; [|done].
  intros Hnone.
  pose proof (update_loop_Inv d preds ∅ st) as HI.
  destruct (update_loop d preds ∅ st) as [[cur|[]] st1] eqn:E; [|done].
  apply update_loop_returned in E as [cs Hcs]. congruence.
Qed.

Lemma update_steps_Inv d cs st : Inv st → Inv (update_steps d cs st).
Proof.
  revert st. induction cs as [|c cs IH]; intros st H; [done|].
  change (update_steps d (c :: cs) st)
    with (update_steps d cs (update_step d c st)).
  by apply IH, update_step_Inv.
Qed.

Lemma process_fields st d :
  _total_frames (process st d).2 = _total_frames st
  ∧ _ttl (process st d).2 = _ttl st.
Proof.
  destruct (frame_classes d) as [cs|] eqn:Hcs.
  - assert (∀ st0, _total_frames (_get_starting_events st0).2 = _total_frames st0
                   ∧ _ttl (_get_starting_events st0).2 = _ttl st0) as Hs.
    { intros st0. unfold _get_starting_events.
      destruct (starting_loop_fields (_event_dict st0) [] st0) as (? & _ & ? & _).
      done. }
    assert (∀ st0, _total_frames (_get_ending_events st0).2 = _total_frames st0
                   ∧ _ttl (_get_ending_events st0).2 = _ttl st0) as He.
    { intros st0. unfold _get_ending_events, Dict.items.
      pose proof (ending_loop_fields (_event_dict st0) [] [] st0) as Hf.
      destruct (ending_loop (_event_dict st0) [] [] st0) as [[? ?] ?].
      cbn in Hf |- *. tauto. }
    unfold process.
    destruct (track_ok st d cs Hcs) as (st2 & -> & Ht & _ & Hl & _).
    specialize (Hs st2). destruct (_get_starting_events st2) as [? st3].
    specialize (He st3). destruct (_get_ending_events st3) as [? st4].
    cbn in Hs, He |- *. split; [lia | lia].
  - unfold process, track. unfold frame_classes in Hcs.
    destruct (predictions d) as [preds|]; [|done]. cbn in Hcs.
    pose proof (update_loop_fields d preds ∅ st) as Hf.
    destruct (update_loop d preds ∅ st) as [[cur|e] st1] eqn:E; [|cbn in *; tauto].
    apply update_loop_returned in E as [cs' Hcs']. congruence.
Qed.

Lemma times_pos c l : c ∈ l → (0 < times c l)%nat.
Proof.
  intros H. destruct (times c l) eqn:E; [|lia]. by apply times_0 in E.
Qed.

Lemma is_expired_false e : is_expired e = false ↔ 1 ≤ current_ttl e.
Proof. unfold is_expired. rewrite Z.leb_gt. lia. Qed.

Lemma is_expired_true e : is_expired e = true ↔ current_ttl e ≤ 0.
Proof. unfold is_expired. by rewrite Z.leb_le. Qed.

Lemma tracked_Inv st d cs k e :
  Inv st → frame_classes d = Some cs →
  tracked st d k = Some e →
  ttl e = _ttl st ∧ current_ttl e ≤ ttl e.
Proof.
  intros HI Hcs. pose proof HI as (Hwf & Hev & Hact).
  rewrite (tracked_get st d cs Hcs).
  destruct (decide (k ∈ cs)) as [Hin|Hout].
  - destruct (update_steps_Inv d cs st HI) as (_ & Hev1 & _).
    destruct (update_steps_fields d cs st) as (_ & _ & Hl & _).
    intros H. rewrite <- Hl. by eapply Hev1.
  - destruct (Dict.get k (_event_dict st)) as [e0|] eqn:E; [|done].
    intros [= <-]. destruct (Hev k e0 E). cbn. split; [done | lia].
Qed.

Lemma tracked_is_Some st d cs k :
  frame_classes d = Some cs →
  is_Some (Dict.get k (_event_dict st)) → is_Some (tracked st d k).
Proof.
  intros Hcs [e0 He0]. rewrite (tracked_get st d cs Hcs).
  destruct (decide (k ∈ cs)) as [Hin|Hout].
  - destruct (update_steps_get_present d cs st k (times_pos _ _ Hin))
      as (e' & -> & _). eauto.
  - rewrite He0. cbn. eauto.
Qed.

Lemma process_Inv st d : Inv st → Inv (process st d).2.
Proof.
  intros HI. destruct (frame_classes d) as [cs|] eqn:Hcs;
    [|by apply process_raised].
  pose proof HI as (Hwf & Hev & Hact).
  destruct (process_state st d cs Hwf Hcs) as (Ht & Hl & Hwf4 & Hget & Hact4).
  split_and!; [done | |].
  - intros k e. rewrite Hget, Hl.
    destruct (tracked st d k) as [e'|] eqn:E; [cbn | done].
    destruct (is_expired e'); [done|]. intros [= <-].
    by eapply tracked_Inv.
  - intros k [Hk Hn]%Hact4. rewrite Hget.
    assert (is_Some (tracked st d k)) as [e He].
    { destruct Hk as [Hk|(e & He & _)]; [|eauto].
      eapply tracked_is_Some; [done|]. destruct (Hact k Hk) as (? & ? & _).
      eauto. }
    rewrite He. cbn. destruct (is_expired e) eqn:Ex.
    + destruct Hn. eauto.
    + exists e. split; [done | by apply is_expired_false].
Qed.

(** ** Sequences of calls *)

Lemma run_snoc st frames d :
  run st (frames ++ [d]) = (process (run st frames) d).2.
Proof. unfold run. by rewrite foldl_app. Qed.

Lemma run_take_S st frames j d :
  frames !! j = Some d →
  run st (take (S j) frames) = (process (run st (take j frames)) d).2.
Proof. intros H. by rewrite (take_S_r _ _ _ H), run_snoc. Qed.

Lemma run_Inv st frames : Inv st → Inv (run st frames).
Proof.
  induction frames as [|d frames IH] using rev_ind; [done|].
  intros H. rewrite run_snoc. by apply process_Inv, IH.
Qed.

Lemma run_fields st frames :
  _total_frames (run st frames) = _total_frames st
  ∧ _ttl (run st frames) = _ttl st.
Proof.
  induction frames as [|d frames IH] using rev_ind; [done|].
  rewrite run_snoc. destruct (process_fields (run st frames) d) as [-> ->].
  done.
Qed.

(** ** What one call returns *)

Lemma process_result st d r st' :
  process st d = (Returned r, st') →
  r = or_None (start_events st d ++ end_events st d).
Proof.
  unfold process, start_events, end_events.
  destruct (track st d) as [[[]|e] st2]; [|done]. cbn [snd].
  destruct (_get_starting_events st2) as [starts st3]. cbn [fst snd].
  destruct (_get_ending_events st3) as [ends st4]. cbn [fst].
  by intros [= <- <-].
Qed.

Lemma start_events_started st d :
  Forall (λ s, is_started s = true) (start_events st d).
Proof.
  unfold start_events, _get_starting_events.
  rewrite starting_loop_trace. apply starting_trace_started.
Qed.

Lemma end_events_ended st d :
  Forall (λ s, is_ended s = true) (end_events st d).
Proof.
  unfold end_events, _get_ending_events, Dict.items.
  set (st3 := (_get_starting_events (track st d).2).2).
  pose proof (ending_loop_trace (_event_dict st3) [] [] st3) as H.
  destruct (ending_loop (_event_dict st3) [] [] st3) as [[evs dels] st4].
  cbn in H |- *. rewrite H. apply ending_trace_ended.
Qed.

(** The signals of a call are those of the two traces, which carry the
    class of each signal. *)
Lemma start_events_trace st d :
  (track st d).1 = Returned () →
  start_events st d = (start_trace st d).*2.
Proof.
  unfold start_events, start_trace, _get_starting_events.
  destruct (track st d) as [[[]|e] st2]; [|done]. intros _.
  by rewrite starting_loop_trace.
Qed.

Lemma end_events_trace st d :
  (track st d).1 = Returned () →
  end_events st d = (end_trace st d).*2.
Proof.
  unfold end_events, end_trace, _get_ending_events, Dict.items.
  destruct (track st d) as [[[]|e] st2]; [|done]. intros _. cbn [snd].
  set (st3 := (_get_starting_events st2).2).
  pose proof (ending_loop_trace (_event_dict st3) [] [] st3) as H.
  destruct (ending_loop (_event_dict st3) [] [] st3) as [[evs dels] st4].
  cbn in H |- *. by rewrite H.
Qed.

Lemma process_result_traces st d r st' :
  process st d = (Returned r, st') →
  r = or_None ((start_trace st d).*2 ++ (end_trace st d).*2).
Proof.
  intros H. rewrite <- start_events_trace, <- end_events_trace.
  - by eapply process_result.
  - unfold process in H. by destruct (track st d) as [[[]|e] st2].
  - unfold process in H. by destruct (track st d) as [[[]|e] st2].
Qed.

(** ** The class of a signal

    The traces pair each signal with a class.  The pairing is the one the
    tracker itself records: a Started signal carries the identifier that
    the loop leaves in [_active_events] under that class, an Ended signal
    the identifier found there before the loop, and both carry the
    detection of an event held under that class. *)

Lemma starting_loop_keeps items evs st k event_id :
  _active_events st !! k = Some event_id →
  _active_events (starting_loop items evs st).2 !! k = Some event_id.
Proof.
  revert evs st. induction items as [|[k' e'] items IH]; intros evs st H; [done|].
  cbn [starting_loop]. destruct (_is_start_event st k' e') eqn:E; [|by apply IH].
  apply is_start_event_true in E as [_ Hk']. apply IH. cbn.
  rewrite lookup_insert_ne; [done | congruence].
Qed.

Lemma starting_trace_sound items evs st k s :
  (k, s) ∈ starting_trace items st →
  ∃ e event_id,
    (k, e) ∈ items
    ∧ s = EventStartedSignal event_id (detection e)
    ∧ _active_events (starting_loop items evs st).2 !! k = Some event_id.
Proof.
  revert evs st. induction items as [|[k' e'] items IH]; intros evs st.
  - by intros ?%elem_of_nil.
  - cbn [starting_trace starting_loop].
    destruct (_is_start_event st k' e').
    + intros [H|H]%elem_of_cons.
      * injection H as -> ->. exists e', (uuid4 (uuid_calls st)).
        split_and!; [apply elem_of_cons; auto | done |].
        apply starting_loop_keeps. cbn. apply lookup_insert_eq.
      * destruct (IH (evs ++ [EventStartedSignal (uuid4 (uuid_calls st))
                                 (detection e')]) _ H)
          as (e & event_id & He & Hs & Ha).
        exists e, event_id. split_and!; [apply elem_of_cons; auto | done |].
        apply Ha.
    + intros H. destruct (IH evs _ H) as (e & event_id & He & Hs & Ha).
      exists e, event_id. split_and!; [apply elem_of_cons; auto | done | done].
Qed.

Lemma ending_trace_sound items st k s :
  (k, s) ∈ ending_trace items st →
  ∃ e event_id,
    (k, e) ∈ items
    ∧ is_expired e = true
    ∧ s = EventEndedSignal event_id (detection e)
    ∧ _active_events st !! k = Some event_id.
Proof.
  revert st. induction items as [|[k' e'] items IH]; intros st.
  - by intros ?%elem_of_nil.
  - assert (∀ st', _active_events st' = _active_events st →
              (k, s) ∈ ending_trace items st' →
              ∃ e event_id, (k, e) ∈ (k', e') :: items ∧ is_expired e = true
                ∧ s = EventEndedSignal event_id (detection e)
                ∧ _active_events st !! k = Some event_id) as Hsame.
    { intros st' Hst' H. destruct (IH _ H) as (e & event_id & He & Hx & Hs & Ha).
      exists e, event_id. rewrite <- Hst'.
      split_and!; [apply elem_of_cons; auto | done | done | done]. }
    cbn [ending_trace]. destruct (is_expired e') eqn:Ex; cbn [negb];
      [|by apply Hsame].
    destruct (_is_end_event st k'); [|by apply Hsame].
    destruct (_active_events st !! k') as [id'|] eqn:Ek'; [|by apply Hsame].
    intros [H|H]%elem_of_cons.
    + injection H as -> ->. exists e', id'.
      split_and!; [apply elem_of_cons; auto | done | done | done].
    + destruct (IH _ H) as (e & event_id & He & Hx & Hs & Ha).
      exists e, event_id. cbn in Ha. rewrite lookup_delete in Ha.
      destruct (decide (k' = k)); [done|].
      split_and!; [apply elem_of_cons; auto | done | done | done].
Qed.

Lemma process_no_expired st d cs :
  Dict.wf (_event_dict st) → frame_classes d = Some cs →
  Forall (λ p, is_expired p.2 = false ∧ 1 ≤ current_ttl p.2)
    (_event_dict (process st d).2).
Proof.
  intros Hwf Hcs.
  destruct (process_state st d cs Hwf Hcs) as (_ & _ & Hwf4 & Hget & _).
  apply Forall_forall. intros [k e] Hin. cbn.
  apply elem_get_Some in Hin; [|done]. rewrite Hget in Hin.
  destruct (tracked st d k) as [e'|]; [cbn in Hin | done].
  destruct (is_expired e') eqn:Ex; [done|]. simplify_eq.
  split; [done | by apply is_expired_false].
Qed.

(** ** The signals a call returns *)

Lemma ending_loop_kept items evs dels st k :
  (¬ ∃ e, (k, e) ∈ items ∧ is_expired e = true) →
  _active_events (ending_loop items evs dels st).2 !! k = _active_events st !! k.
Proof.
  revert evs dels st. induction items as [|[k' e'] items IH];
    intros evs dels st Hn; [done|].
  assert (¬ ∃ e, (k, e) ∈ items ∧ is_expired e = true) as Hn'.
  { intros (e & He & Hx). apply Hn. exists e.
    split; [apply elem_of_cons; auto | done]. }
  cbn [ending_loop]. destruct (is_expired e') eqn:Ex; cbn [negb]; [|by apply IH].
  assert (k' ≠ k) as Hne.
  { intros ->. apply Hn. exists e'. split; [apply elem_of_cons; auto | done]. }
  destruct (_is_end_event st k'); [|by apply IH].
  destruct (_active_events st !! k'); [|by apply IH].
  rewrite IH by done. cbn. by apply lookup_delete_ne.
Qed.

(** The three states of a call that returns. *)
Lemma process_phases st d cs :
  frame_classes d = Some cs →
  ∃ st2, track st d = (Returned (), st2)
    ∧ start_trace st d = starting_trace (_event_dict st2) st2
    ∧ end_trace st d
      = ending_trace (_event_dict st2) (_get_starting_events st2).2
    ∧ _event_dict (_get_starting_events st2).2 = _event_dict st2
    ∧ _active_events (process st d).2
      = _active_events
          (ending_loop (_event_dict st2) [] []
             (_get_starting_events st2).2).2
    ∧ uuid_calls (process st d).2 = uuid_calls (_get_starting_events st2).2.
Proof.
  intros Hcs. destruct (track_ok st d cs Hcs) as (st2 & Ht & _).
  exists st2. unfold start_trace, end_trace, process. rewrite Ht.
  unfold Dict.items.
  assert (_event_dict (_get_starting_events st2).2 = _event_dict st2) as Hd.
  { unfold _get_starting_events.
    by destruct (starting_loop_fields (_event_dict st2) [] st2) as (_ & ? & _). }
  rewrite Hd. split_and!; try done.
  - destruct (_get_starting_events st2) as [starts st3]. cbn [snd] in *.
    unfold _get_ending_events, Dict.items. rewrite Hd.
    by destruct (ending_loop (_event_dict st2) [] [] st3) as [[? ?] ?].
  - destruct (_get_starting_events st2) as [starts st3]. cbn [snd] in *.
    unfold _get_ending_events, Dict.items. rewrite Hd.
    pose proof (ending_loop_fields (_event_dict st2) [] [] st3) as Hf.
    destruct (ending_loop (_event_dict st2) [] [] st3) as [[? ?] ?].
    cbn in Hf |- *. tauto.
Qed.

Lemma or_None_Some (l : list Signal) x : x ∈ l → or_None l = Some l.
Proof. destruct l; [by intros ?%elem_of_nil | done]. Qed.

Lemma or_None_inv (l l' : list Signal) : or_None l = Some l' → l' = l.
Proof. destruct l; [done | by intros [= <-]]. Qed.

(** A call on a payload with all its keys returns the signals of the two
    traces, those of the first and then those of the second, and its
    local lists [start_events] and [end_events] are those signals. *)
Lemma process_emits st d cs :
  frame_classes d = Some cs →
  (process st d).1
  = Returned (or_None ((start_trace st d).*2 ++ (end_trace st d).*2))
  ∧ start_events st d = (start_trace st d).*2
  ∧ end_events st d = (end_trace st d).*2.
Proof.
  intros Hcs. destruct (track_ok st d cs Hcs) as (st2 & Ht & _).
  assert ((track st d).1 = Returned ()) as Hr by by rewrite Ht.
  rewrite <- (start_events_trace st d Hr), <- (end_events_trace st d Hr).
  split_and!; try done.
  unfold process, start_events, end_events. rewrite Ht. cbn [snd].
  destruct (_get_starting_events st2) as [starts st3]. cbn [fst snd].
  by destruct (_get_ending_events st3) as [ends st4].
Qed.

(** Each signal of a returned list comes from one of the traces. *)
Lemma returned_signal st d cs l s :
  frame_classes d = Some cs →
  (process st d).1 = Returned (Some l) → s ∈ l →
  ∃ k, ((k, s) ∈ start_trace st d ∧ is_started s = true)
       ∨ ((k, s) ∈ end_trace st d ∧ is_ended s = true).
Proof.
  intros Hcs Hl Hs. destruct (process_emits st d cs Hcs) as (Hp & Hse & Hee).
  rewrite Hp in Hl. injection Hl as Hl. apply or_None_inv in Hl. subst l.
  pose proof (start_events_started st d) as HS. rewrite Hse in HS.
  pose proof (end_events_ended st d) as HE. rewrite Hee in HE.
  apply elem_of_app in Hs as [Hs|Hs].
  - pose proof (proj1 (Forall_forall _ _) HS s Hs) as Hst.
    apply list_elem_of_fmap in Hs as ([k s'] & -> & Hin). exists k. by left.
  - pose proof (proj1 (Forall_forall _ _) HE s Hs) as Hen.
    apply list_elem_of_fmap in Hs as ([k s'] & -> & Hin). exists k. by right.
Qed.

Lemma start_trace_returned st d cs k s :
  frame_classes d = Some cs →
  (k, s) ∈ start_trace st d →
  ∃ l, (process st d).1 = Returned (Some l) ∧ s ∈ l.
Proof.
  intros Hcs Hin. destruct (process_emits st d cs Hcs) as (-> & _).
  assert (s ∈ (start_trace st d).*2 ++ (end_trace st d).*2) as Hs.
  { apply elem_of_app. left. apply list_elem_of_fmap. by exists (k, s). }
  eexists. split; [|exact Hs]. by rewrite (or_None_Some _ s).
Qed.

Lemma end_trace_returned st d cs k s :
  frame_classes d = Some cs →
  (k, s) ∈ end_trace st d →
  ∃ l, (process st d).1 = Returned (Some l) ∧ s ∈ l.
Proof.
  intros Hcs Hin. destruct (process_emits st d cs Hcs) as (-> & _).
  assert (s ∈ (start_trace st d).*2 ++ (end_trace st d).*2) as Hs.
  { apply elem_of_app. right. apply list_elem_of_fmap. by exists (k, s). }
  eexists. split; [|exact Hs]. by rewrite (or_None_Some _ s).
Qed.

Lemma start_trace_signal st d cs c s :
  Dict.wf (_event_dict st) →
  frame_classes d = Some cs →
  (c, s) ∈ start_trace st d →
  ∃ e event_id,
    tracked st d c = Some e
    ∧ s = EventStartedSignal event_id (detection e)
    ∧ (c ∈ cs → detection e = d)
    ∧ (c ∉ ended_classes st d →
       _active_events (process st d).2 !! c = Some event_id).
Proof.
  intros Hwf Hcs Hin.
  pose proof (tracked_get st d cs Hcs c) as Htg.
  unfold ended_classes, tracked in *.
  destruct (process_phases st d cs Hcs) as (st2 & Ht & Hs & He & Hd & Ha & _).
  destruct (track_ok st d cs Hcs) as (st2' & Ht' & _ & _ & _ & _ & Hwf2 & _).
  assert (st2' = st2) as -> by congruence. specialize (Hwf2 Hwf).
  rewrite Ht in Htg |- *. cbn [snd] in *. rewrite Hs in Hin. rewrite He, Ha.
  destruct (starting_trace_sound (_event_dict st2) [] st2 c s Hin)
    as (e & event_id & Hce & -> & Hid).
  change (starting_loop (_event_dict st2) [] st2)
      with (_get_starting_events st2) in Hid.
  exists e, event_id. split_and!; [by apply elem_get_Some | done | |].
  - intros Hc. apply elem_get_Some in Hce; [|done].
    rewrite Htg, decide_True in Hce by done.
    destruct (update_steps_get_present d cs st c (times_pos _ _ Hc))
      as (e' & He' & Hd' & _). congruence.
  - intros Hne. rewrite ending_loop_kept; [done|].
    intros Hex. apply Hne. apply ending_trace_keys.
    split; [by rewrite Hid | done].
Qed.

Lemma end_trace_signal st d cs c s :
  Dict.wf (_event_dict st) →
  frame_classes d = Some cs →
  (c, s) ∈ end_trace st d →
  ∃ e event_id,
    tracked st d c = Some e
    ∧ is_expired e = true
    ∧ s = EventEndedSignal event_id (detection e)
    ∧ (∀ id0, _active_events st !! c = Some id0 → event_id = id0)
    ∧ (c ∉ cs → ∃ e0, Dict.get c (_event_dict st) = Some e0
                      ∧ detection e = detection e0)
    ∧ Dict.get c (_event_dict (process st d).2) = None
    ∧ _active_events (process st d).2 !! c = None.
Proof.
  intros Hwf Hcs Hin.
  pose proof (tracked_get st d cs Hcs c) as Htg.
  destruct (process_state st d cs Hwf Hcs) as (_ & _ & _ & Hget & Hact).
  unfold tracked in *.
  destruct (process_phases st d cs Hcs) as (st2 & Ht & _ & He & Hd & _ & _).
  destruct (track_ok st d cs Hcs) as (st2' & Ht' & _ & Ha2 & _ & _ & Hwf2 & _).
  assert (st2' = st2) as -> by congruence. specialize (Hwf2 Hwf).
  rewrite Ht in Htg, Hget, Hact |- *. cbn [snd] in *. rewrite He in Hin.
  destruct (ending_trace_sound _ _ c s Hin) as (e & event_id & Hce & Hx & -> & Hid).
  apply elem_get_Some in Hce; [|done].
  exists e, event_id. split_and!; try done.
  - intros id0 Hid0. rewrite <- Ha2 in Hid0.
    pose proof (starting_loop_keeps (_event_dict st2) [] st2 c id0 Hid0) as Hk.
    change (starting_loop (_event_dict st2) [] st2)
      with (_get_starting_events st2) in Hk. congruence.
  - intros Hout. rewrite Htg, decide_False in Hce by done.
    destruct (Dict.get c (_event_dict st)) as [e0|]; [|done].
    injection Hce as <-. by exists e0.
  - rewrite Hget, Hce. cbn. by rewrite Hx.
  - apply eq_None_not_Some. rewrite Hact. intros [_ []]. eauto.
Qed.

(** The class a trace gives a signal is one the signal is recorded
    for. *)
Lemma trace_recorded st d cs k s :
  Dict.wf (_event_dict st) →
  frame_classes d = Some cs →
  (k, s) ∈ start_trace st d ∨ (k, s) ∈ end_trace st d →
  recorded st d k s.
Proof.
  intros Hwf Hcs Hin. unfold recorded, tracked.
  destruct (process_phases st d cs Hcs) as (st2 & Ht & Hs & He & Hd & _ & _).
  destruct (track_ok st d cs Hcs) as (st2' & Ht' & _ & _ & _ & _ & Hwf2 & _).
  assert (st2' = st2) as -> by congruence. specialize (Hwf2 Hwf).
  rewrite Ht. cbn [snd]. rewrite Hs, He in Hin. destruct Hin as [Hin|Hin].
  - destruct (starting_trace_sound (_event_dict st2) [] st2 k s Hin)
      as (e & event_id & Hce & -> & Hid).
    exists e. split_and!; [by apply elem_get_Some | done | exact Hid].
  - destruct (ending_trace_sound _ _ k s Hin)
      as (e & event_id & Hce & Hx & -> & Hid).
    exists e. split_and!; [by apply elem_get_Some | done | exact Hid].
Qed.

(** Each signal of a returned list is recorded for a class that one of
    the traces gives it. *)
Lemma returned_recorded st d cs l s :
  Dict.wf (_event_dict st) →
  frame_classes d = Some cs →
  (process st d).1 = Returned (Some l) → s ∈ l →
  ∃ k, recorded st d k s
       ∧ (k ∈ started_classes st d ∨ k ∈ ended_classes st d).
Proof.
  intros Hwf Hcs Hl Hs.
  destruct (returned_signal st d cs l s Hcs Hl Hs) as [k [[Hin _]|[Hin _]]].
  - exists k. split; [by apply (trace_recorded st d cs); [| |left]|].
    left. apply list_elem_of_fmap. by exists (k, s).
  - exists k. split; [by apply (trace_recorded st d cs); [| |right]|].
    right. apply list_elem_of_fmap. by exists (k, s).
Qed.

Lemma returned_started st d cs l s :
  frame_classes d = Some cs →
  (process st d).1 = Returned (Some l) → s ∈ l → is_started s = true →
  ∃ k, (k, s) ∈ start_trace st d.
Proof.
  intros Hcs Hl Hs Hst.
  destruct (returned_signal st d cs l s Hcs Hl Hs) as [k [[Hin _]|[_ Hen]]].
  - by exists k.
  - by destruct s.
Qed.

Lemma returned_ended st d cs l s :
  frame_classes d = Some cs →
  (process st d).1 = Returned (Some l) → s ∈ l → is_ended s = true →
  ∃ k, (k, s) ∈ end_trace st d.
Proof.
  intros Hcs Hl Hs Hen.
  destruct (returned_signal st d cs l s Hcs Hl Hs) as [k [[_ Hst]|[Hin _]]].
  - by destruct s.
  - by exists k.
Qed.

Lemma returned_other st d cs c l s :
  Dict.wf (_event_dict st) →
  frame_classes d = Some cs →
  c ∉ started_classes st d → c ∉ ended_classes st d →
  (process st d).1 = Returned (Some l) → s ∈ l →
  ∃ k, k ≠ c ∧ recorded st d k s.
Proof.
  intros Hwf Hcs Hns Hne Hl Hs.
  destruct (returned_recorded st d cs l s Hwf Hcs Hl Hs) as (k & Hrec & Hk).
  exists k. split; [|done]. intros ->. tauto.
Qed.

(** ** The properties of the tracker *)

(** C10: on a payload without the key 'predictions', [process] raises
    [KeyError] and the tracker is exactly what it was before the call. *)
Theorem C10_missing_predictions st d :
  predictions d = None → process st d = (Raised KeyError, st).
Proof. intros H. unfold process. by rewrite track_no_predictions. Qed.

(** C5: a call of [process] that returns never returns the empty list:
    its result is [None] whenever neither [start_events] nor [end_events]
    holds a signal; on a tracker just constructed and a payload with an
    empty list of predictions the result is [None] (and the tracker is
    unchanged). *)
Theorem C5_none_when_no_signal st d r st' :
  process st d = (Returned r, st') →
  r ≠ Some []
  ∧ (start_events st d = [] → end_events st d = [] → r = None)
  ∧ (r = None → start_events st d = [] ∧ end_events st d = [])
  ∧ ∀ N L other,
      process (RoIBusinessLogic_init N L) (mkDetection other (Some []))
      = (Returned None, RoIBusinessLogic_init N L).
Proof.
  intros ->%process_result. split_and!.
  - by destruct (start_events st d ++ end_events st d).
  - by intros -> ->.
  - destruct (start_events st d); [|done].
    by destruct (end_events st d).
  - done.
Qed.

(** C6: a list returned by [process] is [start_events ++ end_events], the
    first made of Started signals only and the second of Ended signals
    only; so an Ended signal never comes before a Started one. *)
Theorem C6_starts_before_ends st d l st' :
  process st d = (Returned (Some l), st') →
  l = start_events st d ++ end_events st d
  ∧ Forall (λ s, is_started s = true) (start_events st d)
  ∧ Forall (λ s, is_ended s = true) (end_events st d)
  ∧ ∀ i j s s', l !! i = Some s → l !! j = Some s' →
      is_ended s = true → is_started s' = true → (j < i)%nat.
Proof.
  intros H%process_result.
  pose proof (start_events_started st d) as Hs.
  pose proof (end_events_ended st d) as He.
  assert (l = start_events st d ++ end_events st d) as ->.
  { destruct (start_events st d ++ end_events st d); [done|].
    by injection H. }
  split_and!; try done.
  intros i j s s' Hi Hj Hend Hstart.
  assert (length (start_events st d) ≤ i)%nat.
  { destruct (decide (i < length (start_events st d))%nat); [|lia].
    rewrite lookup_app_l in Hi by done.
    eapply Forall_lookup_1 in Hs; [|done]. by destruct s. }
  assert (j < length (start_events st d))%nat; [|lia].
  destruct (decide (j < length (start_events st d))%nat); [done|].
  rewrite lookup_app_r in Hj by lia.
  eapply Forall_lookup_1 in He; [|done]. by destruct s'.
Qed.

(** C7: an [Event] created with time-to-live [L] keeps [ttl = L] and
    [current_ttl <= L] through every sequence of [no_detection] and
    [new_detection] calls, and [is_expired] is [current_ttl <= 0]. *)
Theorem C7_ttl_bounded d L now (cs : list EventCall) :
  let e := calls (Event_init d L now) cs in
  current_ttl (Event_init d L now) ≤ L
  ∧ ttl e = L
  ∧ current_ttl e ≤ L
  ∧ current_ttl (no_detection e) ≤ L
  ∧ (∀ d', current_ttl (new_detection d' e) ≤ L)
  ∧ (is_expired e = true ↔ current_ttl e ≤ 0).
Proof.
  cbn zeta. assert (ttl (calls (Event_init d L now) cs) = L
    ∧ current_ttl (calls (Event_init d L now) cs) ≤ L) as [Ht Hc].
  { induction cs as [|c cs IH] using rev_ind; [cbn; lia|].
    unfold calls in *. rewrite foldl_app. cbn [foldl].
    destruct IH as [IH1 IH2]. destruct c; cbn; lia. }
  split_and!;
    [cbn; lia | done | done | cbn; lia | intros d'; cbn; lia
    | apply is_expired_true].
Qed.

(** C9: on a tracker constructed with [ttl >= 1], after any calls,
    a call of [process] that returns leaves no expired event in
    [_event_dict]: each event left has [current_ttl >= 1]. *)
Theorem C9_no_expired_left N L history d r st' :
  1 ≤ L →
  process (run (RoIBusinessLogic_init N L) history) d = (Returned r, st') →
  Forall (λ p, is_expired p.2 = false ∧ 1 ≤ current_ttl p.2) (_event_dict st').
Proof.
  intros _ H. destruct (process_returned _ _ _ _ H) as [cs Hcs].
  destruct (run_Inv (RoIBusinessLogic_init N L) history (Inv_init N L))
    as (Hwf & _).
  pose proof (process_no_expired _ d cs Hwf Hcs) as HF.
  by rewrite H in HF.
Qed.

(** C3: when a class occurs [k >= 2] times in the predictions of one
    payload, the event the class has when the signals of the call are
    computed counts [k] more detected frames than before the call, or
    exactly [k] when the call created it; the call then leaves that event
    in [_event_dict] unless it is expired, which it is only with a
    time-to-live below 1. *)
Theorem C3_duplicates_counted st d cs c k :
  Dict.wf (_event_dict st) →
  frame_classes d = Some cs → times c cs = k → (2 ≤ k)%nat →
  ∃ e', tracked st d c = Some e'
    ∧ num_detected_frames e'
      = match Dict.get c (_event_dict st) with
        | Some e => num_detected_frames e + Z.of_nat k
        | None => Z.of_nat k
        end
    ∧ Dict.get c (_event_dict (process st d).2)
      = (if is_expired e' then None else Some e')
    ∧ (is_expired e' = false ↔ 1 ≤ ttl e').
Proof.
  intros Hwf Hcs Hk Hk2.
  assert (0 < times c cs)%nat as Hpos by lia.
  assert (c ∈ cs) as Hin.
  { destruct (decide (c ∈ cs)) as [|Hout]; [done|].
    apply times_0 in Hout. lia. }
  destruct (update_steps_get_present d cs st c Hpos) as (e' & He' & _ & Hc & Hm).
  exists e'. rewrite (tracked_get st d cs Hcs), decide_True by done.
  destruct (process_state st d cs Hwf Hcs) as (_ & _ & _ & Hget & _).
  split_and!.
  - done.
  - rewrite <- Hk. by destruct (Dict.get c (_event_dict st)) as [e|]; destruct Hm.
  - rewrite Hget, (tracked_get st d cs Hcs), decide_True by done.
    by rewrite He'.
  - rewrite is_expired_false. by rewrite Hc.
Qed.

(** C8: a class that is not active, whose event has not been detected in
    [_total_frames] frames and is expired when the signals of the call
    are computed, gets no Ended signal (and no Started one) from that
    call, and the call removes its event from [_event_dict].  The call
    returns the signals of the traces and no other, so each signal it
    returns is that of another class. *)
Theorem C8_no_end_without_start st d cs c e :
  Dict.wf (_event_dict st) →
  frame_classes d = Some cs →
  _active_events st !! c = None →
  tracked st d c = Some e →
  num_detected_frames e < _total_frames st →
  is_expired e = true →
  times c (ended_classes st d) = 0%nat
  ∧ times c (started_classes st d) = 0%nat
  ∧ Dict.get c (_event_dict (process st d).2) = None
  ∧ _active_events (process st d).2 !! c = None
  ∧ (process st d).1
    = Returned (or_None ((start_trace st d).*2 ++ (end_trace st d).*2))
  ∧ end_events st d = (end_trace st d).*2
  ∧ ∀ l s, (process st d).1 = Returned (Some l) → s ∈ l →
           ∃ k, k ≠ c ∧ recorded st d k s.
Proof.
  intros Hwf Hcs Ha He Hn Hx.
  destruct (process_state st d cs Hwf Hcs) as (_ & _ & _ & Hget & Hact).
  destruct (process_emits st d cs Hcs) as (Hp & _ & Hee).
  assert (c ∉ ended_classes st d) as Hne.
  { rewrite (ended_classes_spec st d cs Hwf Hcs).
    intros [[[? ?]|(e' & He' & Hc)] _]; [congruence|].
    assert (e' = e) as -> by congruence. lia. }
  assert (c ∉ started_classes st d) as Hns.
  { rewrite (started_classes_spec st d cs Hwf Hcs).
    intros [_ (e' & He' & Hc)].
    assert (e' = e) as -> by congruence. lia. }
  split_and!; [by apply times_0 | by apply times_0 | | | done | done |].
  - rewrite Hget, He. cbn. by rewrite Hx.
  - apply eq_None_not_Some. rewrite Hact. intros [_ []]. eauto.
  - intros l s Hl Hs.
    destruct (returned_recorded st d cs l s Hwf Hcs Hl Hs) as (k & Hrec & Hk).
    exists k. split; [|done]. intros ->. tauto.
Qed.

(** C4, amended: after every sequence of calls on a tracker just
    constructed, every active class is tracked: the keys of
    [_active_events] are among the keys of [_event_dict]. *)
Theorem C4_active_subset_tracked N L history :
  let st := run (RoIBusinessLogic_init N L) history in
  dom (_active_events st)
  ⊆ (list_to_set (Dict.keys (_event_dict st)) : gset string).
Proof.
  intros st k Hk%elem_of_dom.
  destruct (run_Inv (RoIBusinessLogic_init N L) history (Inv_init N L))
    as (_ & _ & Hact).
  destruct (Hact k Hk) as (e & He & _).
  apply elem_of_list_to_set, get_is_Some_keys. eauto.
Qed.

(** One frame in which the class occurs once, on a tracker with
    [ttl >= 1] in which the class has been seen in [j] frames so far. *)
Lemma started_once_step N L st d c (j : nat) :
  1 ≤ L → Inv st → _total_frames st = N → _ttl st = L →
  num_detected_frames <$> Dict.get c (_event_dict st)
    = (if decide (j = 0%nat) then None else Some (Z.of_nat j)) →
  (is_Some (_active_events st !! c) ↔ N ≤ Z.of_nat j) →
  occurs 1 c d →
  times c (started_classes st d)
    = (if decide (Z.of_nat (S j) = N) then 1 else 0)%nat
  ∧ times c (ended_classes st d) = 0%nat
  ∧ num_detected_frames <$> Dict.get c (_event_dict (process st d).2)
    = Some (Z.of_nat (S j))
  ∧ (is_Some (_active_events (process st d).2 !! c) ↔ N ≤ Z.of_nat (S j))
  ∧ (process st d).1
    = Returned (or_None ((start_trace st d).*2 ++ (end_trace st d).*2))
  ∧ start_events st d = (start_trace st d).*2
  ∧ (Z.of_nat (S j) = N →
     ∃ event_id l,
       (c, EventStartedSignal event_id d) ∈ start_trace st d
       ∧ (process st d).1 = Returned (Some l)
       ∧ EventStartedSignal event_id d ∈ l
       ∧ _active_events (process st d).2 !! c = Some event_id)
  ∧ (Z.of_nat (S j) ≠ N →
     ∀ l s, (process st d).1 = Returned (Some l) → s ∈ l →
            ∃ k, k ≠ c ∧ recorded st d k s).
Proof.
  intros HL HI HN Httl Hcount Hactive (cs & Hcs & Hone).
  pose proof HI as (Hwf & Hev & _).
  assert (c ∈ cs) as Hin.
  { destruct (decide (c ∈ cs)) as [|Hout]; [done|].
    apply times_0 in Hout. lia. }
  destruct (update_steps_get_present d cs st c ltac:(lia))
    as (e' & He' & _ & Hc & Hm).
  assert (tracked st d c = Some e') as Ht.
  { by rewrite (tracked_get st d cs Hcs), decide_True. }
  assert (num_detected_frames e' = Z.of_nat (S j) ∧ ttl e' = L) as [Hn Hl].
  { rewrite Hone in Hm.
    destruct (Dict.get c (_event_dict st)) as [e|] eqn:E.
    - destruct Hm as (Hm & Hl' & _). destruct (Hev c e E) as [Hl'' _].
      cbn in Hcount. destruct (decide (j = 0%nat)); [done|].
      simplify_eq. split; [lia | congruence].
    - destruct Hm as [Hm Hl']. cbn in Hcount.
      destruct (decide (j = 0%nat)); [|done]. subst. split; [lia | done]. }
  assert (is_expired e' = false) as Hx by (apply is_expired_false; lia).
  destruct (process_state st d cs Hwf Hcs) as (_ & _ & _ & Hget & Hact).
  destruct (process_emits st d cs Hcs) as (Hp & Hse & _).
  assert (c ∉ ended_classes st d) as Hne.
  { rewrite (ended_classes_spec st d cs Hwf Hcs).
    intros [_ (e & He & Hx')]. congruence. }
  assert (Z.of_nat (S j) = N → c ∈ started_classes st d) as Hstarted.
  { intros Heq. apply (started_classes_spec st d cs Hwf Hcs). split.
    - apply eq_None_not_Some. rewrite Hactive. lia.
    - exists e'. split; [done | lia]. }
  assert (Z.of_nat (S j) ≠ N → c ∉ started_classes st d) as Hnot.
  { intros Hne'. rewrite (started_classes_spec st d cs Hwf Hcs).
    intros [Ha (e & He & Hc')]. assert (e = e') as -> by congruence.
    apply eq_None_not_Some in Ha. rewrite Hactive in Ha. lia. }
  split_and!; [| by apply times_0 | | | done | done | |].
  - rewrite times_NoDup by apply started_classes_NoDup.
    destruct (decide (Z.of_nat (S j) = N)) as [Heq|Hne'].
    + by rewrite decide_True by auto.
    + by rewrite decide_False by auto.
  - rewrite Hget, Ht. cbn. rewrite Hx. cbn. by rewrite Hn.
  - rewrite Hact, Hactive, HN. split.
    + intros [[?|(e & He & Hc')] _]; [lia|].
      assert (e = e') as -> by congruence. lia.
    + intros Hle. split.
      * right. exists e'. split; [done | lia].
      * intros (e & He & Hx'). congruence.
  - intros Heq. specialize (Hstarted Heq).
    apply list_elem_of_fmap in Hstarted as ([c' s] & Hc' & Hs).
    cbn in Hc'. subst c'.
    destruct (start_trace_signal st d cs c s Hwf Hcs Hs)
      as (e & event_id & He & -> & Hd & Hid).
    rewrite (Hd Hin) in Hs.
    destruct (start_trace_returned st d cs _ _ Hcs Hs) as (l & Hret & Hsl).
    exists event_id, l. split_and!; [done | done | done | by apply Hid].
  - intros Hne' l s Hl' Hs.
    apply (returned_other st d cs c l s); auto.
Qed.

(** C1, amended: on a tracker constructed with [total_frames = N >= 1]
    and [ttl >= 1], fed frames that each hold the class once, the call for
    frame [j+1] emits a Started signal for the class once if [j+1 = N]
    and none otherwise; frame [j+1] is the one after which the event of
    the class counts [j+1] detected frames, and the class is active from
    frame [N] on.  What each call returns is the list of the signals of
    its traces; the list returned for frame [N] holds the Started signal
    of the class, with the payload of that frame and the identifier that
    [_active_events] then has for the class, and each signal in the list
    returned for another frame is that of another class. *)
Theorem C1_started_once N L frames c :
  1 ≤ N → 1 ≤ L →
  Forall (occurs 1 c) frames →
  ∀ (j : nat) d, frames !! j = Some d →
    let st := run (RoIBusinessLogic_init N L) (take j frames) in
    times c (started_classes st d)
      = (if decide (Z.of_nat (S j) = N) then 1 else 0)%nat
    ∧ times c (ended_classes st d) = 0%nat
    ∧ num_detected_frames <$> Dict.get c (_event_dict (process st d).2)
      = Some (Z.of_nat (S j))
    ∧ (is_Some (_active_events (process st d).2 !! c) ↔ N ≤ Z.of_nat (S j))
    ∧ (process st d).1
      = Returned (or_None ((start_trace st d).*2 ++ (end_trace st d).*2))
    ∧ start_events st d = (start_trace st d).*2
    ∧ (Z.of_nat (S j) = N →
       ∃ event_id l,
         (c, EventStartedSignal event_id d) ∈ start_trace st d
         ∧ (process st d).1 = Returned (Some l)
         ∧ EventStartedSignal event_id d ∈ l
         ∧ _active_events (process st d).2 !! c = Some event_id)
    ∧ (Z.of_nat (S j) ≠ N →
       ∀ l s, (process st d).1 = Returned (Some l) → s ∈ l →
              ∃ k, k ≠ c ∧ recorded st d k s).
Proof.
  intros HN HL Hall.
  set (st0 := RoIBusinessLogic_init N L).
  assert (∀ frames', Inv (run st0 frames')
            ∧ _total_frames (run st0 frames') = N
            ∧ _ttl (run st0 frames') = L) as Hrun.
  { intros frames'. split; [apply run_Inv, Inv_init | apply run_fields]. }
  induction j as [|j IH]; intros d Hd; cbn zeta.
  - destruct (Hrun (take 0 frames)) as (HI & Ht & Hl).
    apply (started_once_step N L _ d c 0); try done.
    + cbn. split; [by intros [? ?] | lia].
    + eapply Forall_lookup_1; done.
  - destruct (Hrun (take (S j) frames)) as (HI & Ht & Hl).
    assert (is_Some (frames !! j)) as [d' Hd'].
    { apply lookup_lt_is_Some. apply lookup_lt_Some in Hd. lia. }
    destruct (IH d' Hd') as (_ & _ & Hc & Ha & _).
    rewrite <- (run_take_S _ _ _ _ Hd') in Hc, Ha.
    apply (started_once_step N L _ d c (S j)); try done.
    eapply Forall_lookup_1; done.
Qed.

(** One frame without the class. *)
Lemma ended_once_step st d c (r j : nat) :
  Inv st → counting_down c r j st → occurs 0 c d →
  times c (ended_classes st d) = (if decide (S j = r) then 1 else 0)%nat
  ∧ times c (started_classes st d) = 0%nat
  ∧ current_ttl <$> tracked st d c
    = (if decide (j < r)%nat then Some (Z.of_nat r - Z.of_nat (S j)) else None)
  ∧ counting_down c r (S j) (process st d).2.
Proof.
  intros HI [Hlt Hge] (cs & Hcs & Hzero).
  pose proof HI as (Hwf & _ & _).
  apply times_0 in Hzero.
  pose proof (tracked_get st d cs Hcs c) as Ht.
  rewrite decide_False in Ht by done.
  destruct (process_state st d cs Hwf Hcs) as (_ & _ & _ & Hget & Hact).
  destruct (decide (j < r)%nat) as [Hj|Hj].
  - destruct (Hlt Hj) as [Hc Ha]. clear Hlt Hge.
    destruct (Dict.get c (_event_dict st)) as [e|] eqn:E; [|done].
    cbn in Hc, Ht. injection Hc as Hc.
    assert (current_ttl (no_detection e) = Z.of_nat r - Z.of_nat (S j)) as Hc'
      by (cbn; lia).
    split_and!.
    + rewrite times_NoDup by apply ended_classes_NoDup.
      destruct (decide (S j = r)) as [Heq|Hne].
      * rewrite decide_True; [done|].
        apply (ended_classes_spec st d cs Hwf Hcs). split; [by left|].
        eexists. split; [done|]. apply is_expired_true. lia.
      * rewrite decide_False; [done|].
        rewrite (ended_classes_spec st d cs Hwf Hcs).
        intros [_ (e' & He' & Hx)]. apply is_expired_true in Hx.
        rewrite Ht in He'. simplify_eq. lia.
    + apply times_0. rewrite (started_classes_spec st d cs Hwf Hcs).
      intros [Hn _]. rewrite Hn in Ha. by destruct Ha.
    + rewrite Ht. cbn. f_equal. lia.
    + split; intros Hj'.
      * assert (is_expired (no_detection e) = false) as Hx
          by (apply is_expired_false; lia).
        split.
        -- rewrite Hget, Ht. cbn. rewrite Hx. cbn. f_equal. lia.
        -- apply Hact. split; [by left|].
           intros (e' & He' & Hx'). rewrite Ht in He'. simplify_eq.
           congruence.
      * assert (is_expired (no_detection e) = true) as Hx
          by (apply is_expired_true; lia).
        split.
        -- rewrite Hget, Ht. cbn. by rewrite Hx.
        -- apply eq_None_not_Some. rewrite Hact. intros [_ []].
           eexists. by rewrite Ht.
  - destruct (Hge ltac:(lia)) as [Hc Ha]. clear Hlt Hge.
    rewrite Hc in Ht. cbn in Ht.
    split_and!.
    + rewrite decide_False by lia.
      apply times_0. rewrite (ended_classes_spec st d cs Hwf Hcs).
      intros [_ (e' & He' & _)]. congruence.
    + apply times_0. rewrite (started_classes_spec st d cs Hwf Hcs).
      intros [_ (e' & He' & _)]. congruence.
    + by rewrite Ht.
    + split; intros Hj'; [lia|]. split.
      * by rewrite Hget, Ht.
      * apply eq_None_not_Some. rewrite Hact.
        intros [[Hs|(e' & He' & _)] _]; [|congruence].
        rewrite Ha in Hs. by destruct Hs.
Qed.

(** C2: a class that is active after some calls has an event with
    [1 <= r <= ttl] frames left to live.  Through frames without the
    class, the call for the [r]-th of them emits an Ended signal for it
    once and no other call does; that call is the first to bring
    [current_ttl] to 0, and after it the class is in neither dict.  What
    each of these calls returns is the list of the signals of its traces;
    the list returned by the [r]-th holds the Ended signal of the class,
    with the identifier [_active_events] had for it and the detection of
    its event, and each signal in the list returned by another of these
    calls is that of another class.  When the class
    comes back after at least [ttl] such frames, it gets a new event
    counting one detected frame. *)
Theorem C2_ended_once N L history gap c :
  is_Some (_active_events (run (RoIBusinessLogic_init N L) history) !! c) →
  Forall (occurs 0 c) gap →
  let st := run (RoIBusinessLogic_init N L) history in
  ∃ r : nat,
    current_ttl <$> Dict.get c (_event_dict st) = Some (Z.of_nat r)
    ∧ (1 ≤ r)%nat ∧ Z.of_nat r ≤ L
    ∧ (∀ (j : nat) d, gap !! j = Some d →
         let st_j := run st (take j gap) in
         times c (ended_classes st_j d) = (if decide (S j = r) then 1 else 0)%nat
         ∧ times c (started_classes st_j d) = 0%nat
         ∧ current_ttl <$> tracked st_j d c
           = (if decide (j < r)%nat
              then Some (Z.of_nat r - Z.of_nat (S j)) else None)
         ∧ ((r ≤ S j)%nat →
            Dict.get c (_event_dict (process st_j d).2) = None
            ∧ _active_events (process st_j d).2 !! c = None)
         ∧ (process st_j d).1
           = Returned
               (or_None ((start_trace st_j d).*2 ++ (end_trace st_j d).*2))
         ∧ end_events st_j d = (end_trace st_j d).*2
         ∧ (S j = r →
            ∃ event_id det l,
              _active_events st_j !! c = Some event_id
              ∧ (c, EventEndedSignal event_id det) ∈ end_trace st_j d
              ∧ (process st_j d).1 = Returned (Some l)
              ∧ EventEndedSignal event_id det ∈ l
              ∧ detection <$> Dict.get c (_event_dict st_j) = Some det)
         ∧ (S j ≠ r →
            ∀ l s, (process st_j d).1 = Returned (Some l) → s ∈ l →
                   ∃ k, k ≠ c ∧ recorded st_j d k s))
    ∧ ((Z.to_nat L ≤ length gap)%nat →
       ∀ d, occurs 1 c d →
         Dict.get c (_event_dict (run st gap)) = None
         ∧ _active_events (run st gap) !! c = None
         ∧ ∃ e, Dict.get c (_event_dict (process (run st gap) d).2) = Some e
                ∧ num_detected_frames e = 1
                ∧ detection e = d).
Proof.
  intros Hactive Hgap st.
  assert (Inv st ∧ _ttl st = L) as [HI Httl].
  { split; [apply run_Inv, Inv_init | apply run_fields]. }
  pose proof HI as (_ & Hev & Hact).
  destruct (Hact c Hactive) as (e & He & Hpos).
  destruct (Hev c e He) as [Hl Hle].
  exists (Z.to_nat (current_ttl e)).
  set (r := Z.to_nat (current_ttl e)).
  assert (∀ j : nat, (j ≤ length gap)%nat →
            Inv (run st (take j gap))
            ∧ _ttl (run st (take j gap)) = L
            ∧ counting_down c r j (run st (take j gap))) as Hrun.
  { induction j as [|j IH]; intros Hj.
    - rewrite take_0. split_and!; try done. split; intros Hr; [|lia].
      split; [|done]. cbn. rewrite He. cbn. f_equal. lia.
    - destruct (IH ltac:(lia)) as (HIj & Hlj & Hcd).
      assert (is_Some (gap !! j)) as [d Hd] by (apply lookup_lt_is_Some; lia).
      rewrite (run_take_S _ _ _ _ Hd). split_and!.
      + by apply process_Inv.
      + destruct (process_fields (run st (take j gap)) d) as [_ ->]. done.
      + eapply ended_once_step; [done | done |].
        eapply Forall_lookup_1; done. }
  split_and!.
  - rewrite He. cbn. f_equal. lia.
  - lia.
  - lia.
  - intros j d Hd. cbn zeta.
    destruct (Hrun j) as (HIj & _ & Hcd).
    { apply lookup_lt_Some in Hd. lia. }
    assert (occurs 0 c d) as Hocc by (eapply Forall_lookup_1; done).
    destruct (ended_once_step _ d c r j HIj Hcd Hocc) as (H1 & H2 & H3 & H4).
    destruct Hocc as (cs & Hcs & Hz). pose proof HIj as (Hwfj & _).
    destruct (process_emits (run st (take j gap)) d cs Hcs) as (Hp & _ & Hee).
    split_and!; try done.
    + intros Hr. by apply H4.
    + intros Hr.
      assert (c ∈ ended_classes (run st (take j gap)) d) as Hin.
      { destruct (decide (c ∈ ended_classes (run st (take j gap)) d))
          as [|Hout]; [done|].
        apply times_0 in Hout. rewrite decide_True in H1 by done. lia. }
      apply list_elem_of_fmap in Hin as ([c' s] & Hc' & Hs).
      cbn in Hc'. subst c'.
      destruct (end_trace_signal (run st (take j gap)) d cs c s Hwfj Hcs Hs)
        as (e' & event_id & _ & _ & -> & Hid & Hout & _).
      destruct Hcd as [Hcd _]. destruct (Hcd ltac:(lia)) as [_ [id0 Hid0]].
      rewrite <- (Hid id0 Hid0) in Hid0.
      destruct (end_trace_returned (run st (take j gap)) d cs _ _ Hcs Hs)
        as (l & Hret & Hsl).
      exists event_id, (detection e'), l. split_and!; try done.
      destruct Hout as (e0 & -> & ->); [|done].
      apply times_0. lia.
    + intros Hr l s Hl' Hs.
      rewrite decide_False in H1 by done.
      apply (returned_other (run st (take j gap)) d cs c l s); auto;
        by apply times_0.
  - intros Hlen d (cs & Hcs & Hone).
    destruct (Hrun (length gap) ltac:(lia)) as (HIg & Hlg & Hcd).
    rewrite firstn_all in HIg, Hlg, Hcd.
    destruct Hcd as [_ Hcd]. destruct Hcd as [Hnone Hna]; [lia|].
    split_and!; try done.
    pose proof HIg as (Hwf & _ & _).
    assert (c ∈ cs) as Hin.
    { destruct (decide (c ∈ cs)) as [|Hout]; [done|].
      apply times_0 in Hout. lia. }
    destruct (update_steps_get_present d cs (run st gap) c ltac:(lia))
      as (e' & He' & Hd' & Hc' & Hm).
    rewrite Hnone, Hone in Hm. destruct Hm as [Hm Hl'].
    destruct (process_state (run st gap) d cs Hwf Hcs) as (_ & _ & _ & Hget & _).
    exists e'. split_and!; try done.
    rewrite Hget, (tracked_get _ d cs Hcs), decide_True, He' by done. cbn.
    assert (is_expired e' = false) as ->; [|done].
    apply is_expired_false. lia.
Qed.

(** ** Further properties of [Event] *)

Lemma calls_snoc e cs c : calls e (cs ++ [c]) = call (calls e cs) c.
Proof. unfold calls. by rewrite foldl_app. Qed.

Lemma new_detections_snoc cs c :
  new_detections (cs ++ [c])
  = (new_detections cs + if is_new_detection c then 1 else 0)%nat.
Proof.
  unfold new_detections. rewrite filter_app, length_app.
  by destruct c.
Qed.

(** X1: an [Event] counts one frame at its creation and one more for
    each [new_detection], whatever [no_detection] calls come between;
    its count is never below 1 and its creation time never changes. *)
Theorem X1_event_counts_detections d L now (cs : list EventCall) :
  let e := calls (Event_init d L now) cs in
  num_detected_frames e = 1 + Z.of_nat (new_detections cs)
  ∧ 1 ≤ num_detected_frames e
  ∧ creation_time e = now.
Proof.
  cbn zeta. induction cs as [|c cs IH] using rev_ind; [by cbn|].
  rewrite calls_snoc, new_detections_snoc.
  destruct IH as (IH1 & IH2 & IH3). destruct c; cbn; split_and!; lia || done.
Qed.

(** X2: [n] calls of [no_detection] in a row take [n] from
    [current_ttl] and leave the rest of the event as it is, so the event
    is expired after them iff it had at most [n] frames left; counted
    from a [new_detection], that is iff [ttl <= n]. *)
Theorem X2_event_countdown e (n : nat) :
  let e' := calls e (replicate n NoDetection) in
  current_ttl e' = current_ttl e - Z.of_nat n
  ∧ num_detected_frames e' = num_detected_frames e
  ∧ detection e' = detection e
  ∧ creation_time e' = creation_time e
  ∧ ttl e' = ttl e
  ∧ (is_expired e' = true ↔ current_ttl e ≤ Z.of_nat n)
  ∧ ∀ d, is_expired (calls (new_detection d e) (replicate n NoDetection)) = true
         ↔ ttl e ≤ Z.of_nat n.
Proof.
  assert (∀ e0, current_ttl (calls e0 (replicate n NoDetection))
                = current_ttl e0 - Z.of_nat n
              ∧ num_detected_frames (calls e0 (replicate n NoDetection))
                = num_detected_frames e0
              ∧ detection (calls e0 (replicate n NoDetection)) = detection e0
              ∧ creation_time (calls e0 (replicate n NoDetection))
                = creation_time e0
              ∧ ttl (calls e0 (replicate n NoDetection)) = ttl e0) as H.
  { induction n as [|n IH]; intros e0; [cbn; split_and!; lia || done|].
    rewrite replicate_S_end, calls_snoc.
    destruct (IH e0) as (H1 & H2 & H3 & H4 & H5). cbn.
    split_and!; lia || done. }
  cbn zeta. destruct (H e) as (H1 & H2 & H3 & H4 & H5).
  split_and!; try done.
  - rewrite is_expired_true. lia.
  - intros d. rewrite is_expired_true.
    destruct (H (new_detection d e)) as (-> & _). cbn. lia.
Qed.

(** ** Further properties of [RoIBusinessLogic.process] *)

(** X3: a call of [process] returns when the payload has the key
    'predictions' and each prediction the key 'classId'; otherwise it
    raises [KeyError]. *)
Theorem X3_process_returns_iff st d :
  (is_Some (frame_classes d) →
   (process st d).1
   = Returned (or_None (start_events st d ++ end_events st d)))
  ∧ (frame_classes d = None → (process st d).1 = Raised KeyError).
Proof.
  split.
  - intros [cs Hcs]. unfold process, start_events, end_events.
    destruct (track_ok st d cs Hcs) as (st2 & -> & _). cbn [snd].
    destruct (_get_starting_events st2) as [starts st3]. cbn [fst snd].
    by destruct (_get_ending_events st3) as [ends st4].
  - intros H. by apply process_raised.
Qed.

Lemma update_loop_raises d pre p post cs cur st :
  mapM classId pre = Some cs → classId p = None →
  update_loop d (pre ++ p :: post) cur st
  = (Raised KeyError, update_steps d cs st).
Proof.
  rewrite mapM_Some. intros H Hp. revert cur st.
  induction H as [|q c pre cs Hc H IH]; intros cur st.
  - cbn. by rewrite Hp.
  - cbn [app update_loop]. rewrite Hc. apply IH.
Qed.

(** X4: when a prediction has no 'classId', [process] raises [KeyError]
    and leaves the tracker as the predictions before that one made it:
    their classes have a new event or one more detection each time they
    occur, with the time-to-live reset; no other event is touched (no
    class is decremented or deleted), [_active_events] is unchanged and
    no identifier is drawn. *)
Theorem X4_process_raises_half_way st d pre p post cs :
  predictions d = Some (pre ++ p :: post) →
  mapM classId pre = Some cs →
  classId p = None →
  process st d = (Raised KeyError, update_steps d cs st)
  ∧ _active_events (process st d).2 = _active_events st
  ∧ uuid_calls (process st d).2 = uuid_calls st
  ∧ (∀ k, k ∉ cs →
       Dict.get k (_event_dict (process st d).2) = Dict.get k (_event_dict st))
  ∧ (∀ k, k ∈ cs →
       ∃ e', Dict.get k (_event_dict (process st d).2) = Some e'
         ∧ num_detected_frames e' = counted st k + Z.of_nat (times k cs)
         ∧ current_ttl e' = ttl e'
         ∧ detection e' = d).
Proof.
  intros Hd Hcs Hp.
  assert (process st d = (Raised KeyError, update_steps d cs st)) as ->.
  { unfold process, track. rewrite Hd.
    by rewrite (update_loop_raises d pre p post cs). }
  cbn [snd]. destruct (update_steps_fields d cs st) as (_ & Ha & _ & Hu).
  split_and!; try done.
  - intros k Hk. by apply update_steps_get_absent.
  - intros k Hk.
    destruct (update_steps_get_present d cs st k (times_pos _ _ Hk))
      as (e' & He' & Hd' & Hc' & Hm).
    exists e'. split_and!; try done. unfold counted.
    destruct (Dict.get k (_event_dict st)); destruct Hm; lia.
Qed.

Lemma update_steps_snoc d cs c st :
  update_steps d (cs ++ [c]) st = update_step d c (update_steps d cs st).
Proof. unfold update_steps. by rewrite foldl_app. Qed.

(** A property of events that the three ways to make or change an event
    keep holds of every event after the first loop. *)
Lemma update_steps_closed (P : Event → Prop) d cs st :
  (∀ d' e, P e → P (new_detection d' e)) →
  (∀ d' t, P (Event_init d' (_ttl st) t)) →
  (∀ k e, Dict.get k (_event_dict st) = Some e → P e) →
  ∀ k e, Dict.get k (_event_dict (update_steps d cs st)) = Some e → P e.
Proof.
  intros Hnew Hinit Hst.
  induction cs as [|c cs IH] using rev_ind; [done|].
  intros k e. rewrite update_steps_snoc, update_step_get.
  destruct (update_steps_fields d cs st) as (_ & _ & Hl & _).
  destruct (decide (c = k)) as [->|Hne]; [|apply IH].
  intros [= <-].
  destruct (Dict.get k (_event_dict (update_steps d cs st))) as [e0|] eqn:E.
  - apply Hnew. by eapply IH.
  - rewrite Hl. apply Hinit.
Qed.

Lemma update_loop_state d preds cur st :
  ∃ cs, (update_loop d preds cur st).2 = update_steps d cs st.
Proof.
  revert cur st. induction preds as [|p preds IH]; intros cur st.
  - by exists [].
  - cbn [update_loop]. destruct (classId p) as [c|]; [|by exists []].
    destruct (IH (cur ∪ {[c]}) (update_step d c st)) as [cs ->].
    by exists (c :: cs).
Qed.

Lemma process_raised_state st d :
  frame_classes d = None → ∃ cs, (process st d).2 = update_steps d cs st.
Proof.
  unfold process, track, frame_classes.
  destruct (predictions d) as [preds|]; cbn; [|by exists []].
  intros Hnone. destruct (update_loop_state d preds ∅ st) as [cs Hcs].
  destruct (update_loop d preds ∅ st) as [[cur|[]] st1] eqn:E; [|by exists cs].
  apply update_loop_returned in E as [cs' Hcs']. congruence.
Qed.

Lemma process_events_closed (P : Event → Prop) st d :
  (∀ d' e, P e → P (new_detection d' e)) →
  (∀ e, P e → P (no_detection e)) →
  (∀ d' t, P (Event_init d' (_ttl st) t)) →
  Dict.wf (_event_dict st) →
  (∀ k e, Dict.get k (_event_dict st) = Some e → P e) →
  ∀ k e, Dict.get k (_event_dict (process st d).2) = Some e → P e.
Proof.
  intros Hnew Hno Hinit Hwf Hst k e.
  destruct (frame_classes d) as [cs|] eqn:Hcs.
  - destruct (process_state st d cs Hwf Hcs) as (_ & _ & _ & Hget & _).
    rewrite Hget, (tracked_get st d cs Hcs).
    destruct (decide (k ∈ cs)) as [Hin|Hout].
    + destruct (Dict.get k (_event_dict (update_steps d cs st))) as [e'|] eqn:E;
        [cbn | done].
      destruct (is_expired e'); [done|]. intros [= <-].
      by eapply (update_steps_closed P).
    + destruct (Dict.get k (_event_dict st)) as [e0|] eqn:E; [cbn | done].
      destruct (is_expired (no_detection e0)); [done|]. intros [= <-].
      apply Hno. by eapply Hst.
  - destruct (process_raised_state st d Hcs) as [cs' ->].
    by apply (update_steps_closed P).
Qed.

(** X5: after every sequence of calls on a tracker just constructed,
    raising calls included, the two parameters are what the constructor
    was given, [_event_dict] holds each class once, each event carries
    the tracker's time-to-live, has no more than that left and counts at
    least one frame, and each active class has an event with at least one
    frame left. *)
Theorem X5_reachable_invariant N L history :
  let st := run (RoIBusinessLogic_init N L) history in
  _total_frames st = N
  ∧ _ttl st = L
  ∧ NoDup (Dict.keys (_event_dict st))
  ∧ (∀ k e, Dict.get k (_event_dict st) = Some e →
            ttl e = L ∧ current_ttl e ≤ L ∧ 1 ≤ num_detected_frames e)
  ∧ (∀ k, is_Some (_active_events st !! k) →
          ∃ e, Dict.get k (_event_dict st) = Some e ∧ 1 ≤ current_ttl e).
Proof.
  cbn zeta.
  destruct (run_fields (RoIBusinessLogic_init N L) history) as [Ht Hl].
  cbn in Ht, Hl.
  destruct (run_Inv (RoIBusinessLogic_init N L) history (Inv_init N L))
    as (Hwf & Hev & Hact).
  split_and!; [done | done | done | | done].
  intros k e He. destruct (Hev k e He) as [H1 H2].
  split_and!; [congruence | lia |].
  clear H1 H2 Hev Hact Hwf Ht Hl. revert k e He. induction history as [|d history IH] using rev_ind.
  - done.
  - rewrite run_snoc.
    apply (process_events_closed (λ e, 1 ≤ num_detected_frames e)).
    + intros d' e He. cbn. lia.
    + intros e He. done.
    + intros d' t. cbn. lia.
    + apply run_Inv, Inv_init.
    + done.
Qed.

(** X6: on a tracker constructed with [ttl >= 1], after any calls, a
    call whose payload holds a class leaves that class with an event that
    has the full time-to-live again, carries this payload and counts the
    occurrences more than before; the call emits no Ended signal for the
    class: it returns the signals of its traces, and each Ended signal
    in the list it returns is that of another class. *)
Theorem X6_detection_resets_ttl N L history d cs c :
  1 ≤ L →
  frame_classes d = Some cs →
  c ∈ cs →
  let st := run (RoIBusinessLogic_init N L) history in
  times c (ended_classes st d) = 0%nat
  ∧ (process st d).1
    = Returned (or_None ((start_trace st d).*2 ++ (end_trace st d).*2))
  ∧ end_events st d = (end_trace st d).*2
  ∧ (∀ l s, (process st d).1 = Returned (Some l) → s ∈ l →
            is_ended s = true → ∃ k, k ≠ c ∧ recorded st d k s)
  ∧ ∃ e', Dict.get c (_event_dict (process st d).2) = Some e'
      ∧ current_ttl e' = L
      ∧ ttl e' = L
      ∧ detection e' = d
      ∧ num_detected_frames e' = counted st c + Z.of_nat (times c cs).
Proof.
  intros HL Hcs Hin st.
  assert (Inv st ∧ _ttl st = L) as [HI Httl].
  { split; [apply run_Inv, Inv_init | apply run_fields]. }
  pose proof HI as (Hwf & Hev & _).
  destruct (update_steps_get_present d cs st c (times_pos _ _ Hin))
    as (e' & He' & Hd' & Hc' & Hm).
  assert (tracked st d c = Some e') as Ht.
  { by rewrite (tracked_get st d cs Hcs), decide_True. }
  assert (ttl e' = L
          ∧ num_detected_frames e' = counted st c + Z.of_nat (times c cs))
    as [Hl Hn].
  { unfold counted.
    destruct (Dict.get c (_event_dict st)) as [e|] eqn:E.
    - destruct Hm as (? & ? & _). destruct (Hev c e E). split; [congruence|lia].
    - destruct Hm. split; [congruence | lia]. }
  assert (is_expired e' = false) as Hx by (apply is_expired_false; lia).
  destruct (process_state st d cs Hwf Hcs) as (_ & _ & _ & Hget & _).
  destruct (process_emits st d cs Hcs) as (Hp & _ & Hee).
  assert (c ∉ ended_classes st d) as Hne.
  { rewrite (ended_classes_spec st d cs Hwf Hcs).
    intros [_ (e & He & Hx')]. congruence. }
  split_and!; [by apply times_0 | done | done | |].
  - intros l s Hl' Hs Hen.
    destruct (returned_ended st d cs l s Hcs Hl' Hs Hen) as [k Hk].
    exists k. split.
    + intros ->. apply Hne. apply list_elem_of_fmap. by exists (c, s).
    + apply (trace_recorded st d cs); auto.
  - exists e'. rewrite Hget, Ht. cbn. rewrite Hx.
    split_and!; [done | lia | done | done | done].
Qed.

(** X7: a call whose payload does not hold a tracked class takes one
    frame from what the class has left and changes nothing else of its
    event; the event is deleted by this call iff it had at most one frame
    left, and an Ended signal goes with the deletion iff the class is
    active or has been detected in [_total_frames] frames.  The call
    returns the signals of its traces: in that case the list it returns
    holds an Ended signal with the detection of the event and the
    identifier [_active_events] had for the class, and otherwise each
    Ended signal in the list is that of another class. *)
Theorem X7_absence_decays st d cs c e :
  Dict.wf (_event_dict st) →
  frame_classes d = Some cs →
  c ∉ cs →
  Dict.get c (_event_dict st) = Some e →
  Dict.get c (_event_dict (process st d).2)
  = (if decide (current_ttl e ≤ 1) then None else Some (no_detection e))
  ∧ (c ∈ ended_classes st d
     ↔ current_ttl e ≤ 1
       ∧ (is_Some (_active_events st !! c)
          ∨ _total_frames st ≤ num_detected_frames e))
  ∧ (process st d).1
    = Returned (or_None ((start_trace st d).*2 ++ (end_trace st d).*2))
  ∧ end_events st d = (end_trace st d).*2
  ∧ (current_ttl e ≤ 1
     ∧ (is_Some (_active_events st !! c)
        ∨ _total_frames st ≤ num_detected_frames e) →
     ∃ event_id l,
       (process st d).1 = Returned (Some l)
       ∧ EventEndedSignal event_id (detection e) ∈ l
       ∧ ∀ id0, _active_events st !! c = Some id0 → event_id = id0)
  ∧ (¬ (current_ttl e ≤ 1
        ∧ (is_Some (_active_events st !! c)
           ∨ _total_frames st ≤ num_detected_frames e)) →
     ∀ l s, (process st d).1 = Returned (Some l) → s ∈ l →
            is_ended s = true → ∃ k, k ≠ c ∧ recorded st d k s).
Proof.
  intros Hwf Hcs Hout He.
  assert (tracked st d c = Some (no_detection e)) as Ht.
  { by rewrite (tracked_get st d cs Hcs), decide_False, He. }
  destruct (process_state st d cs Hwf Hcs) as (_ & _ & _ & Hget & _).
  destruct (process_emits st d cs Hcs) as (Hp & _ & Hee).
  assert (c ∈ ended_classes st d
          ↔ current_ttl e ≤ 1
            ∧ (is_Some (_active_events st !! c)
               ∨ _total_frames st ≤ num_detected_frames e)) as Hiff.
  { rewrite (ended_classes_spec st d cs Hwf Hcs), Ht. split.
    + intros [Ha (e' & [= <-] & Hx)]. apply is_expired_true in Hx. cbn in Hx.
      split; [lia|]. destruct Ha as [?|(e' & [= <-] & Hc)]; [by left | by right].
    + intros [Hle Ha]. split.
      * destruct Ha as [?|Hc]; [by left|]. right. by exists (no_detection e).
      * exists (no_detection e). split; [done|].
        apply is_expired_true. cbn. lia. }
  split_and!; [| done | done | done | |].
  - rewrite Hget, Ht. cbn.
    destruct (decide (current_ttl e ≤ 1)) as [Hle|Hgt].
    + by rewrite (proj2 (is_expired_true (no_detection e))) by (cbn; lia).
    + by rewrite (proj2 (is_expired_false (no_detection e))) by (cbn; lia).
  - intros Hcond. apply Hiff in Hcond.
    apply list_elem_of_fmap in Hcond as ([c' s] & Hc' & Hs).
    cbn in Hc'. subst c'.
    destruct (end_trace_signal st d cs c s Hwf Hcs Hs)
      as (e' & event_id & He' & _ & -> & Hid & _).
    assert (e' = no_detection e) as -> by congruence.
    destruct (end_trace_returned st d cs _ _ Hcs Hs) as (l & Hret & Hsl).
    exists event_id, l. done.
  - intros Hcond l s Hl Hs Hen.
    destruct (returned_ended st d cs l s Hcs Hl Hs Hen) as [k Hk].
    exists k. split.
    + intros ->. apply Hcond, Hiff. apply list_elem_of_fmap. by exists (c, s).
    + apply (trace_recorded st d cs); auto.
Qed.

(** X8: a call emits a Started signal for a class iff the class is not
    active, is in the payload or already tracked, and its count of
    detected frames plus its occurrences in the payload reaches
    [_total_frames]; so a class listed several times in one payload
    starts that much earlier.  The call returns the signals of its
    traces: in that case the list it returns holds a Started signal with
    the detection of the event of the class, and otherwise each Started
    signal in the list is that of another class. *)
Theorem X8_start_condition st d cs c :
  Dict.wf (_event_dict st) →
  frame_classes d = Some cs →
  (c ∈ started_classes st d
   ↔ _active_events st !! c = None
     ∧ (c ∈ cs ∨ is_Some (Dict.get c (_event_dict st)))
     ∧ _total_frames st ≤ counted st c + Z.of_nat (times c cs))
  ∧ (process st d).1
    = Returned (or_None ((start_trace st d).*2 ++ (end_trace st d).*2))
  ∧ start_events st d = (start_trace st d).*2
  ∧ (_active_events st !! c = None
     ∧ (c ∈ cs ∨ is_Some (Dict.get c (_event_dict st)))
     ∧ _total_frames st ≤ counted st c + Z.of_nat (times c cs) →
     ∃ e event_id l,
       tracked st d c = Some e
       ∧ (process st d).1 = Returned (Some l)
       ∧ EventStartedSignal event_id (detection e) ∈ l)
  ∧ (¬ (_active_events st !! c = None
        ∧ (c ∈ cs ∨ is_Some (Dict.get c (_event_dict st)))
        ∧ _total_frames st ≤ counted st c + Z.of_nat (times c cs)) →
     ∀ l s, (process st d).1 = Returned (Some l) → s ∈ l →
            is_started s = true → ∃ k, k ≠ c ∧ recorded st d k s).
Proof.
  intros Hwf Hcs.
  destruct (process_emits st d cs Hcs) as (Hp & Hse & _).
  assert (c ∈ started_classes st d
          ↔ _active_events st !! c = None
            ∧ (c ∈ cs ∨ is_Some (Dict.get c (_event_dict st)))
            ∧ _total_frames st ≤ counted st c + Z.of_nat (times c cs)) as Hiff.
  { rewrite (started_classes_spec st d cs Hwf Hcs).
    rewrite (tracked_get st d cs Hcs). unfold counted.
    destruct (decide (c ∈ cs)) as [Hin|Hout].
    - destruct (update_steps_get_present d cs st c (times_pos _ _ Hin))
        as (e' & -> & _ & _ & Hm).
      assert (num_detected_frames e'
              = match Dict.get c (_event_dict st) with
                | Some e => num_detected_frames e
                | None => 0
                end + Z.of_nat (times c cs)) as Hn.
      { destruct (Dict.get c (_event_dict st)); destruct Hm; lia. }
      split.
      + intros [Ha (e & [= <-] & Hc)]. split_and!; [done | by left | lia].
      + intros (Ha & _ & Hc). split; [done|]. exists e'. split; [done | lia].
    - apply times_0 in Hout as Hz. rewrite Hz, Z.add_0_r.
      destruct (Dict.get c (_event_dict st)) as [e|]; cbn.
      + split.
        * intros [Ha (e' & [= <-] & Hc)].
          split_and!; [done | right; eauto | done].
        * intros (Ha & _ & Hc). split; [done|]. by exists (no_detection e).
      + split.
        * by intros [_ (e' & ? & _)].
        * intros (_ & [?|[? ?]] & _); done. }
  split_and!; [done | done | done | |].
  - intros Hcond. apply Hiff in Hcond.
    apply list_elem_of_fmap in Hcond as ([c' s] & Hc' & Hs).
    cbn in Hc'. subst c'.
    destruct (start_trace_signal st d cs c s Hwf Hcs Hs)
      as (e & event_id & He & -> & _).
    destruct (start_trace_returned st d cs _ _ Hcs Hs) as (l & Hret & Hsl).
    exists e, event_id, l. done.
  - intros Hcond l s Hl Hs Hst.
    destruct (returned_started st d cs l s Hcs Hl Hs Hst) as [k Hk].
    exists k. split.
    + intros ->. apply Hcond, Hiff. apply list_elem_of_fmap. by exists (c, s).
    + apply (trace_recorded st d cs); auto.
Qed.

Lemma process_counted_active st d cs :
  Dict.wf (_event_dict st) → frame_classes d = Some cs →
  counted_active (process st d).2.
Proof.
  intros Hwf Hcs k e He Hc.
  destruct (process_state st d cs Hwf Hcs) as (Ht & _ & _ & Hget & Hact).
  rewrite Ht in Hc. rewrite Hget in He.
  destruct (tracked st d k) as [e'|] eqn:E; [cbn in He | done].
  destruct (is_expired e') eqn:Ex; [done|]. simplify_eq.
  apply Hact. split; [right; eauto|].
  intros (e' & He' & Hx). congruence.
Qed.

Lemma run_counted_active N L history :
  Forall (λ d, is_Some (frame_classes d)) history →
  counted_active (run (RoIBusinessLogic_init N L) history).
Proof.
  induction history as [|d history IH] using rev_ind; intros H.
  - intros k e He. done.
  - apply Forall_app in H as [_ Hd]. apply Forall_singleton in Hd as [cs Hcs].
    rewrite run_snoc. apply (process_counted_active _ d cs); [|done].
    apply run_Inv, Inv_init.
Qed.

(** X9: on a tracker constructed with [ttl >= 1] and fed payloads that
    have all their keys, no call emits both a Started and an Ended
    signal for the same class; the signals the call returns are those of
    its traces, the Started ones and then the Ended ones, so a Started
    and an Ended signal in the list it returns are those of two
    different classes. *)
Theorem X9_no_start_and_end_together N L history d cs c :
  1 ≤ L →
  Forall (λ d, is_Some (frame_classes d)) history →
  frame_classes d = Some cs →
  let st := run (RoIBusinessLogic_init N L) history in
  ¬ (c ∈ started_classes st d ∧ c ∈ ended_classes st d)
  ∧ (process st d).1
    = Returned (or_None ((start_trace st d).*2 ++ (end_trace st d).*2))
  ∧ start_events st d = (start_trace st d).*2
  ∧ end_events st d = (end_trace st d).*2
  ∧ ∀ l s s', (process st d).1 = Returned (Some l) → s ∈ l → s' ∈ l →
              is_started s = true → is_ended s' = true →
              ∃ k k', k ≠ k' ∧ recorded st d k s ∧ recorded st d k' s'.
Proof.
  intros HL Hhist Hcs st.
  assert (Inv st ∧ _ttl st = L) as [HI Httl].
  { split; [apply run_Inv, Inv_init | apply run_fields]. }
  pose proof HI as (Hwf & Hev & _).
  pose proof (run_counted_active N L history Hhist) as Hca. fold st in Hca.
  assert (∀ k, ¬ (k ∈ started_classes st d ∧ k ∈ ended_classes st d)) as Hno.
  { intros k. rewrite (started_classes_spec st d cs Hwf Hcs),
      (ended_classes_spec st d cs Hwf Hcs).
    intros [[Ha (e & He & Hc)] [_ (e' & He' & Hx)]].
    assert (e' = e) as -> by congruence. apply is_expired_true in Hx.
    destruct (tracked_Inv st d cs k e HI Hcs He) as [Hl Hle].
    rewrite (tracked_get st d cs Hcs) in He.
    destruct (decide (k ∈ cs)) as [Hin|Hout].
    - destruct (update_steps_get_present d cs st k (times_pos _ _ Hin))
        as (e1 & He1 & _ & Hc1 & _).
      assert (e1 = e) as -> by congruence. lia.
    - destruct (Dict.get k (_event_dict st)) as [e0|] eqn:E; [|done].
      injection He as <-. cbn in Hc.
      destruct (Hca k e0 E Hc) as [x Hx']. congruence. }
  destruct (process_emits st d cs Hcs) as (Hp & Hse & Hee).
  split_and!; [apply Hno | done | done | done |].
  intros l s s' Hl Hs Hs' Hst Hen.
  destruct (returned_started st d cs l s Hcs Hl Hs Hst) as [k Hk].
  destruct (returned_ended st d cs l s' Hcs Hl Hs' Hen) as [k' Hk'].
  exists k, k'. split_and!.
  - intros ->. apply (Hno k'). split; apply list_elem_of_fmap.
    + by exists (k', s).
    + by exists (k', s').
  - apply (trace_recorded st d cs); auto.
  - apply (trace_recorded st d cs); auto.
Qed.

(** ** Identifiers and payloads of the signals *)

(** X10: each Started signal in the list a call returns is that of a
    class that was not active and has been detected in [_total_frames]
    frames: it carries the detection of the event of the class, which is
    the payload of the call when the class is in it, and its identifier
    is the one found under the class in [_active_events] after the call,
    unless the event is expired and the same call ends the class. *)
Theorem X10_started_signal st d cs l s :
  Dict.wf (_event_dict st) →
  frame_classes d = Some cs →
  (process st d).1 = Returned (Some l) →
  s ∈ l →
  is_started s = true →
  ∃ c e event_id,
    tracked st d c = Some e
    ∧ s = EventStartedSignal event_id (detection e)
    ∧ _active_events st !! c = None
    ∧ _total_frames st ≤ num_detected_frames e
    ∧ (c ∈ cs → detection e = d)
    ∧ (is_expired e = false →
       _active_events (process st d).2 !! c = Some event_id).
Proof.
  intros Hwf Hcs Hl Hs Hst.
  destruct (returned_started st d cs l s Hcs Hl Hs Hst) as [c Hc].
  destruct (start_trace_signal st d cs c s Hwf Hcs Hc)
    as (e & event_id & He & -> & Hd & Hid).
  assert (c ∈ started_classes st d) as Hin.
  { apply list_elem_of_fmap. by eexists (c, _). }
  apply (started_classes_spec st d cs Hwf Hcs) in Hin as [Ha (e' & He' & Hn)].
  assert (e' = e) as -> by congruence.
  exists c, e, event_id. split_and!; try done.
  intros Hx. apply Hid. rewrite (ended_classes_spec st d cs Hwf Hcs).
  intros [_ (e' & He'' & Hx')]. congruence.
Qed.

(** X11: each Ended signal in the list a call returns is that of a class
    with an expired event, whose detection it carries (for a class not
    in the payload, the one it had before the call); its identifier is
    the one that was under the class in [_active_events] before the call
    or, when the class was not active and has been detected in
    [_total_frames] frames, that of the Started signal for the class in
    the same list; after the call the class is in neither dict. *)
Theorem X11_ended_signal st d cs l s :
  Dict.wf (_event_dict st) →
  frame_classes d = Some cs →
  (process st d).1 = Returned (Some l) →
  s ∈ l →
  is_ended s = true →
  ∃ c e event_id,
    tracked st d c = Some e
    ∧ is_expired e = true
    ∧ s = EventEndedSignal event_id (detection e)
    ∧ (_active_events st !! c = Some event_id
       ∨ (_active_events st !! c = None
          ∧ _total_frames st ≤ num_detected_frames e
          ∧ EventStartedSignal event_id (detection e) ∈ l))
    ∧ (c ∉ cs → ∃ e0, Dict.get c (_event_dict st) = Some e0
                      ∧ detection e = detection e0)
    ∧ Dict.get c (_event_dict (process st d).2) = None
    ∧ _active_events (process st d).2 !! c = None.
Proof.
  intros Hwf Hcs Hl Hs Hen.
  destruct (returned_ended st d cs l s Hcs Hl Hs Hen) as [c Hc].
  destruct (end_trace_signal st d cs c s Hwf Hcs Hc)
    as (e & event_id & He & Hx & -> & Hid & Hout & Hget & Hact).
  exists c, e, event_id. split_and!; try done.
  destruct (_active_events st !! c) as [id0|] eqn:Ha.
  { left. by rewrite (Hid id0). }
  right. split; [done|].
  assert (c ∈ ended_classes st d) as Hin.
  { apply list_elem_of_fmap. by eexists (c, _). }
  apply (ended_classes_spec st d cs Hwf Hcs) in Hin
    as [[[? Hs']|(e' & He' & Hn)] _]; [by rewrite Ha in Hs'|].
  assert (e' = e) as -> by congruence. split; [done|].
  assert (c ∈ started_classes st d) as Hst.
  { apply (started_classes_spec st d cs Hwf Hcs). eauto. }
  apply list_elem_of_fmap in Hst as ([c' s'] & Hc' & Hs').
  cbn in Hc'. subst c'.
  destruct (start_trace_signal st d cs c s' Hwf Hcs Hs')
    as (e1 & id' & He1 & -> & _).
  assert (e1 = e) as -> by congruence.
  destruct (trace_recorded st d cs c _ Hwf Hcs (or_introl Hs'))
    as (_ & _ & _ & Hr1).
  destruct (trace_recorded st d cs c _ Hwf Hcs (or_intror Hc))
    as (_ & _ & _ & Hr2).
  cbn in Hr1, Hr2. assert (id' = event_id) as -> by congruence.
  destruct (start_trace_returned st d cs _ _ Hcs Hs') as (l' & Hret & Hsl).
  assert (l' = l) as -> by congruence. done.
Qed.

(** X12: a class that is active, and whose event is not expired when the
    signals of a call are computed, keeps its identifier through the
    call and gets no signal from it: the call returns the signals of
    its traces, and each signal in the list it returns is that of
    another class. *)
Theorem X12_identifier_kept st d cs c event_id :
  Dict.wf (_event_dict st) →
  frame_classes d = Some cs →
  _active_events st !! c = Some event_id →
  (∀ e, tracked st d c = Some e → is_expired e = false) →
  _active_events (process st d).2 !! c = Some event_id
  ∧ (c ∉ started_classes st d)
  ∧ (c ∉ ended_classes st d)
  ∧ (process st d).1
    = Returned (or_None ((start_trace st d).*2 ++ (end_trace st d).*2))
  ∧ ∀ l s, (process st d).1 = Returned (Some l) → s ∈ l →
           ∃ k, k ≠ c ∧ recorded st d k s.
Proof.
  intros Hwf Hcs Hid Hx.
  assert (c ∉ ended_classes st d) as Hne.
  { rewrite (ended_classes_spec st d cs Hwf Hcs).
    intros [_ (e & He & Hx')]. rewrite (Hx e He) in Hx'. done. }
  assert (c ∉ started_classes st d) as Hns.
  { rewrite (started_classes_spec st d cs Hwf Hcs). intros [Hn _]. congruence. }
  destruct (process_emits st d cs Hcs) as (Hp & _ & _).
  split_and!; [| done | done | done |].
  - unfold ended_classes in Hne.
    destruct (process_phases st d cs Hcs) as (st2 & Ht & _ & He & Hd & Ha & _).
    destruct (track_ok st d cs Hcs) as (st2' & Ht' & _ & Ha2 & _).
    assert (st2' = st2) as -> by congruence.
    rewrite Ha. rewrite He in Hne. rewrite <- Ha2 in Hid.
    pose proof (starting_loop_keeps (_event_dict st2) [] st2 c event_id Hid) as Hk.
    change (starting_loop (_event_dict st2) [] st2)
      with (_get_starting_events st2) in Hk.
    rewrite ending_loop_kept; [done|].
    intros Hex. apply Hne. apply ending_trace_keys.
    split; [by rewrite Hk | done].
  - intros l s Hl Hs.
    destruct (returned_recorded st d cs l s Hwf Hcs Hl Hs) as (k & Hrec & Hk).
    exists k. split; [|done]. intros ->. tauto.
Qed.

Lemma starting_loop_draws items evs st :
  uuid_calls (starting_loop items evs st).2
  = (uuid_calls st + length (starting_trace items st))%nat
  ∧ event_id_of <$> (starting_trace items st).*2
    = uuid4 <$> seq (uuid_calls st) (length (starting_trace items st)).
Proof.
  revert evs st. induction items as [|[k e] items IH]; intros evs st.
  - cbn. split; [lia | done].
  - cbn [starting_loop starting_trace].
    destruct (_is_start_event st k e); [|apply IH].
    edestruct IH as [-> Hids]. cbn [length seq]. rewrite !fmap_cons.
    cbn in Hids |- *. split; [lia|]. f_equal. apply Hids.
Qed.

(** X13: a call that returns draws one identifier for each Started
    signal it emits, in the order of the signals, and none for an Ended
    signal; when [uuid4] never gives a string twice, the Started signals
    of a call carry different identifiers. *)
Theorem X13_identifiers_drawn st d cs :
  frame_classes d = Some cs →
  uuid_calls (process st d).2
  = (uuid_calls st + length (start_events st d))%nat
  ∧ event_id_of <$> start_events st d
    = uuid4 <$> seq (uuid_calls st) (length (start_events st d))
  ∧ ((∀ i j, uuid4 i = uuid4 j → i = j) →
     NoDup (event_id_of <$> start_events st d)).
Proof.
  intros Hcs.
  destruct (process_phases st d cs Hcs) as (st2 & Ht & Hs & _ & _ & _ & Hu).
  destruct (track_ok st d cs Hcs) as (st2' & Ht' & _ & _ & _ & Hu2 & _).
  assert (st2' = st2) as -> by congruence.
  rewrite start_events_trace by by rewrite Ht.
  rewrite Hs, Hu. unfold _get_starting_events, Dict.items.
  destruct (starting_loop_draws (_event_dict st2) [] st2) as [-> ->].
  rewrite !length_fmap, Hu2. split_and!; try done.
  intros Hinj. apply NoDup_fmap_2; [|apply NoDup_seq].
  intros i j. apply Hinj.
Qed.

(** ** The order of the classes *)






(** ** [Pipeline.process_detection] *)

(** X15: [process_detection] raises [KeyError] when the payload has no
    'predictions' or its first prediction no 'classId'; it then prints
    nothing and leaves the tracker as it was, whatever the region filter
    would have made of the payload. *)
Theorem X15_process_detection_early_error {E : Type}
    (roi_process : Detection → Result E Detection) self d :
  predictions d = None
  ∨ (∃ p ps, predictions d = Some (p :: ps) ∧ classId p = None) →
  process_detection roi_process self d = (Failed (PyError KeyError), self).
Proof.
  unfold process_detection. intros [->|(p & ps & -> & Hp)]; [done|].
  cbn. rewrite Hp. by destruct self.
Qed.

(** X16: when the first prediction has a class identifier,
    [process_detection] prints one line if that class is 'backpack' or
    'handbag' and nothing otherwise: the other predictions and the region
    filter have no part in it.  It then gives the filtered payload to
    the tracker and returns or raises what the tracker does; when the
    filter raises, the tracker is left as it was.  With an empty list of
    predictions it prints nothing and goes on in the same way. *)
Theorem X16_process_detection_alert {E : Type}
    (roi_process : Detection → Result E Detection) self d preds :
  predictions d = Some preds →
  preds = [] ∨ is_Some (head preds ≫= classId) →
  stdout (process_detection roi_process self d).2
  = stdout self
    ++ match head preds ≫= classId with
       | Some c =>
           if bool_decide (c = "backpack" ∨ c = "handbag")
           then [c +:+ " encontrada! Avise o funcionario"] else []
       | None => []
       end
  ∧ match roi_process d with
    | Done d' =>
        (process_detection roi_process self d).1
        = match (process (_business_logic self) d').1 with
          | Returned event => Done event
          | Raised e => Failed (PyError e)
          end
        ∧ _business_logic (process_detection roi_process self d).2
          = (process (_business_logic self) d').2
    | Failed e =>
        (process_detection roi_process self d).1 = Failed (FilterError e)
        ∧ _business_logic (process_detection roi_process self d).2
          = _business_logic self
    end.
Proof.
  unfold process_detection. intros -> Hp.
  assert (∃ out r, alerta preds (stdout self) = (Returned r, out)
            ∧ out = stdout self
                ++ match head preds ≫= classId with
                   | Some c =>
                       if bool_decide (c = "backpack" ∨ c = "handbag")
                       then [c +:+ " encontrada! Avise o funcionario"] else []
                   | None => []
                   end) as (out & r & -> & ->).
  { destruct preds as [|p ps].
    - exists (stdout self), None. cbn. by rewrite app_nil_r.
    - destruct Hp as [?|[c Hc]]; [done|]. cbn in Hc |- *.
      destruct (classId p) as [c'|]; [cbn in Hc |- * | done].
      destruct (decide (c' = "backpack")) as [->|Hb].
      + eexists _, _. split; [done|]. done.
      + destruct (decide (c' = "handbag")) as [->|Hh].
        * eexists _, _. split; [done|]. done.
        * rewrite !bool_decide_eq_false_2 by tauto. cbn.
          eexists _, _. split; [done|]. by rewrite app_nil_r. }
  destruct (roi_process d) as [d'|e]; [|done].
  by destruct (process (_business_logic self) d') as [[r'|e'] logic].
Qed.

End Tracker.

(** ** The theorems at concrete inputs *)

Local Abbreviation run0 := (run uuid0 clock0).
Local Abbreviation process0 := (process uuid0 clock0).
Local Abbreviation tracked0 := (tracked clock0).
Local Abbreviation start_events0 := (start_events uuid0 clock0).
Local Abbreviation end_events0 := (end_events uuid0 clock0).
Local Abbreviation started0 := (started_classes uuid0 clock0).
Local Abbreviation ended0 := (ended_classes uuid0 clock0).
Local Abbreviation start_trace0 := (start_trace uuid0 clock0).
Local Abbreviation end_trace0 := (end_trace uuid0 clock0).
Local Abbreviation recorded0 := (recorded uuid0 clock0).
Local Abbreviation new := RoIBusinessLogic_init.

(** Scenarios A and B: [total_frames = 3], [ttl = 2], the car in frames
    1 to 3 and then absent. *)
Example scenario_A_B :
  outputs uuid0 clock0 (new 3 2) [car1; car2; car3; none4; none5]
  = [Returned None; Returned None;
     Returned (Some [EventStartedSignal "0" car3]);
     Returned None;
     Returned (Some [EventEndedSignal "0" car3])].
Proof. vm_compute. reflexivity. Qed.

(** Scenario C: [total_frames = 5], [ttl = 1], a dog seen once. *)
Example scenario_C :
  outputs uuid0 clock0 (new 5 1) [dog1; none2] = [Returned None; Returned None]
  ∧ _event_dict (run0 (new 5 1) [dog1; none2]) = [].
Proof. split; vm_compute; reflexivity. Qed.

(** A prediction without a class identifier after one with: the call
    raises and the event created for the first prediction stays. *)
Example raise_half_way :
  (process0 (new 3 2)
     (mkDetection "f1" (Some [mkPrediction (Some "car") ""; mkPrediction None ""]))).1
  = Raised KeyError
  ∧ Dict.keys
      (_event_dict
         (process0 (new 3 2)
            (mkDetection "f1"
               (Some [mkPrediction (Some "car") ""; mkPrediction None ""]))).2)
    = ["car"].
Proof. split; vm_compute; reflexivity. Qed.

(** C10 at a tracker that has seen a frame, on a payload without the key. *)
Lemma C10_witness :
  predictions no_predictions = None
  ∧ process0 (run0 (new 3 2) [car1]) no_predictions
    = (Raised KeyError, run0 (new 3 2) [car1]).
Proof.
  split; [reflexivity|].
  apply (C10_missing_predictions uuid0 clock0 (run0 (new 3 2) [car1])
           no_predictions).
  reflexivity.
Defined.

(** C5 at the second frame of Scenario A: no signal, and [None]. *)
Lemma C5_witness :
  process0 (run0 (new 3 2) [car1]) car2
  = (Returned None, run0 (new 3 2) [car1; car2])
  ∧ (None ≠ Some ([] : list Signal)
     ∧ (start_events0 (run0 (new 3 2) [car1]) car2 = [] →
        end_events0 (run0 (new 3 2) [car1]) car2 = [] →
        None = (None : option (list Signal)))
     ∧ (None = (None : option (list Signal)) →
        start_events0 (run0 (new 3 2) [car1]) car2 = []
        ∧ end_events0 (run0 (new 3 2) [car1]) car2 = [])
     ∧ ∀ N L other,
         process0 (new N L) (mkDetection other (Some []))
         = (Returned None, new N L)).
Proof.
  split; [vm_compute; reflexivity|].
  apply (C5_none_when_no_signal uuid0 clock0 (run0 (new 3 2) [car1]) car2 None
           (run0 (new 3 2) [car1; car2])).
  vm_compute; reflexivity.
Defined.

(** C6 with [total_frames = 1] and [ttl = 1]: the car of frame 1 ends in
    the call that starts the dog of frame 2; Started comes first. *)
Lemma C6_witness :
  process0 (run0 (new 1 1) [car1]) dog2
  = (Returned (Some [EventStartedSignal "1" dog2; EventEndedSignal "0" car1]),
     run0 (new 1 1) [car1; dog2])
  ∧ ([EventStartedSignal "1" dog2; EventEndedSignal "0" car1]
     = start_events0 (run0 (new 1 1) [car1]) dog2
       ++ end_events0 (run0 (new 1 1) [car1]) dog2
     ∧ Forall (λ s, is_started s = true)
         (start_events0 (run0 (new 1 1) [car1]) dog2)
     ∧ Forall (λ s, is_ended s = true)
         (end_events0 (run0 (new 1 1) [car1]) dog2)
     ∧ ∀ i j s s',
         [EventStartedSignal "1" dog2; EventEndedSignal "0" car1] !! i = Some s →
         [EventStartedSignal "1" dog2; EventEndedSignal "0" car1] !! j = Some s' →
         is_ended s = true → is_started s' = true → (j < i)%nat).
Proof.
  split; [vm_compute; reflexivity|].
  apply (C6_starts_before_ends uuid0 clock0 (run0 (new 1 1) [car1]) dog2
           [EventStartedSignal "1" dog2; EventEndedSignal "0" car1]
           (run0 (new 1 1) [car1; dog2])).
  vm_compute; reflexivity.
Defined.

(** C9 after the first absent frame of Scenario B: the car is kept with
    one frame left to live. *)
Lemma C9_witness :
  1 ≤ 2
  ∧ process0 (run0 (new 3 2) [car1; car2; car3]) none4
    = (Returned None, run0 (new 3 2) [car1; car2; car3; none4])
  ∧ Forall (λ p, is_expired p.2 = false ∧ 1 ≤ current_ttl p.2)
      (_event_dict (run0 (new 3 2) [car1; car2; car3; none4])).
Proof.
  assert (process0 (run0 (new 3 2) [car1; car2; car3]) none4
          = (Returned None, run0 (new 3 2) [car1; car2; car3; none4])) as H
    by (vm_compute; reflexivity).
  split_and!; [lia | exact H |].
  apply (C9_no_expired_left uuid0 clock0 3 2 [car1; car2; car3] none4 None);
    [lia | exact H].
Defined.

(** C3 at a frame that lists the car twice, after one frame with the car:
    the count goes from 1 to 3. *)
Lemma C3_witness :
  Dict.wf (_event_dict (run0 (new 3 2) [car1]))
  ∧ frame_classes twice = Some ["car"; "dog"; "car"]
  ∧ times "car" ["car"; "dog"; "car"] = 2%nat
  ∧ (2 ≤ 2)%nat
  ∧ ∃ e', tracked0 (run0 (new 3 2) [car1]) twice "car" = Some e'
      ∧ num_detected_frames e'
        = match Dict.get "car" (_event_dict (run0 (new 3 2) [car1])) with
          | Some e => num_detected_frames e + Z.of_nat 2
          | None => Z.of_nat 2
          end
      ∧ Dict.get "car" (_event_dict (process0 (run0 (new 3 2) [car1]) twice).2)
        = (if is_expired e' then None else Some e')
      ∧ (is_expired e' = false ↔ 1 ≤ ttl e').
Proof.
  assert (Dict.wf (_event_dict (run0 (new 3 2) [car1]))) as Hwf.
  { vm_compute. apply NoDup_singleton. }
  split; [exact Hwf|]. split; [reflexivity|]. split; [reflexivity|].
  split; [lia|].
  apply (C3_duplicates_counted uuid0 clock0 (run0 (new 3 2) [car1]) twice
           ["car"; "dog"; "car"] "car" 2%nat);
    [exact Hwf | reflexivity | reflexivity | lia].
Defined.

(** C8 at Scenario C: [total_frames = 5], [ttl = 1], a dog seen once. *)
Lemma C8_witness :
  Dict.wf (_event_dict (run0 (new 5 1) [dog1]))
  ∧ frame_classes none2 = Some []
  ∧ _active_events (run0 (new 5 1) [dog1]) !! "dog" = None
  ∧ tracked0 (run0 (new 5 1) [dog1]) none2 "dog"
    = Some (no_detection (Event_init dog1 1 (clock0 0)))
  ∧ num_detected_frames (no_detection (Event_init dog1 1 (clock0 0)))
    < _total_frames (run0 (new 5 1) [dog1])
  ∧ is_expired (no_detection (Event_init dog1 1 (clock0 0))) = true
  ∧ (times "dog" (ended0 (run0 (new 5 1) [dog1]) none2) = 0%nat
     ∧ times "dog" (started0 (run0 (new 5 1) [dog1]) none2) = 0%nat
     ∧ Dict.get "dog"
         (_event_dict (process0 (run0 (new 5 1) [dog1]) none2).2) = None
     ∧ _active_events (process0 (run0 (new 5 1) [dog1]) none2).2 !! "dog"
       = None
     ∧ (process0 (run0 (new 5 1) [dog1]) none2).1
       = Returned
           (or_None ((start_trace0 (run0 (new 5 1) [dog1]) none2).*2
                     ++ (end_trace0 (run0 (new 5 1) [dog1]) none2).*2))
     ∧ end_events0 (run0 (new 5 1) [dog1]) none2
       = (end_trace0 (run0 (new 5 1) [dog1]) none2).*2
     ∧ ∀ l s,
         (process0 (run0 (new 5 1) [dog1]) none2).1 = Returned (Some l) →
         s ∈ l →
         ∃ k, k ≠ "dog" ∧ recorded0 (run0 (new 5 1) [dog1]) none2 k s).
Proof.
  assert (Dict.wf (_event_dict (run0 (new 5 1) [dog1]))) as Hwf.
  { vm_compute. apply NoDup_singleton. }
  split; [exact Hwf|]. split; [reflexivity|].
  split; [vm_compute; reflexivity|]. split; [vm_compute; reflexivity|].
  split; [vm_compute; reflexivity|]. split; [reflexivity|].
  apply (C8_no_end_without_start uuid0 clock0 (run0 (new 5 1) [dog1]) none2
           [] "dog" (no_detection (Event_init dog1 1 (clock0 0))));
    [exact Hwf | reflexivity | vm_compute; reflexivity | vm_compute; reflexivity
    | vm_compute; reflexivity | reflexivity].
Defined.

Lemma occurs_car_123 : Forall (occurs 1 "car") [car1; car2; car3].
Proof.
  repeat (apply Forall_cons_2; [exists ["car"]; split; reflexivity|]).
  apply Forall_nil_2.
Defined.

(** C1 (amended) at Scenario A: [total_frames = 3], [ttl = 2], the third
    frame with the car. *)
Lemma C1_witness :
  1 ≤ 3 ∧ 1 ≤ 2
  ∧ Forall (occurs 1 "car") [car1; car2; car3]
  ∧ [car1; car2; car3] !! 2%nat = Some car3
  ∧ (let st := run0 (new 3 2) (take 2 [car1; car2; car3]) in
     times "car" (started0 st car3)
     = (if decide (Z.of_nat 3 = 3%Z) then 1 else 0)%nat
     ∧ times "car" (ended0 st car3) = 0%nat
     ∧ num_detected_frames
         <$> Dict.get "car" (_event_dict (process0 st car3).2)
       = Some (Z.of_nat 3)
     ∧ (is_Some (_active_events (process0 st car3).2 !! "car")
        ↔ 3 ≤ Z.of_nat 3)
     ∧ (process0 st car3).1
       = Returned
           (or_None ((start_trace0 st car3).*2 ++ (end_trace0 st car3).*2))
     ∧ start_events0 st car3 = (start_trace0 st car3).*2
     ∧ (Z.of_nat 3 = 3%Z →
        ∃ event_id l,
          ("car", EventStartedSignal event_id car3) ∈ start_trace0 st car3
          ∧ (process0 st car3).1 = Returned (Some l)
          ∧ EventStartedSignal event_id car3 ∈ l
          ∧ _active_events (process0 st car3).2 !! "car" = Some event_id)
     ∧ (Z.of_nat 3 ≠ 3%Z →
        ∀ l s, (process0 st car3).1 = Returned (Some l) → s ∈ l →
               ∃ k, k ≠ "car" ∧ recorded0 st car3 k s)).
Proof.
  split; [lia|]. split; [lia|]. split; [exact occurs_car_123|].
  split; [reflexivity|].
  apply (C1_started_once uuid0 clock0 3 2 [car1; car2; car3] "car");
    [lia | lia | exact occurs_car_123 | reflexivity].
Defined.

Lemma occurs_none_45 : Forall (occurs 0 "car") [none4; none5].
Proof.
  repeat (apply Forall_cons_2; [exists []; split; reflexivity|]).
  apply Forall_nil_2.
Defined.

Lemma active_car_123 :
  is_Some (_active_events (run0 (new 3 2) [car1; car2; car3]) !! "car").
Proof. exists "0". vm_compute. reflexivity. Defined.

(** C2 at Scenario B: the car, started at frame 3, is absent from frames
    4 and 5. *)
Lemma C2_witness :
  is_Some (_active_events (run0 (new 3 2) [car1; car2; car3]) !! "car")
  ∧ Forall (occurs 0 "car") [none4; none5]
  ∧ ∃ r : nat,
      current_ttl
        <$> Dict.get "car" (_event_dict (run0 (new 3 2) [car1; car2; car3]))
      = Some (Z.of_nat r)
      ∧ (1 ≤ r)%nat ∧ Z.of_nat r ≤ 2
      ∧ (∀ (j : nat) d, [none4; none5] !! j = Some d →
           let st_j := run0 (run0 (new 3 2) [car1; car2; car3])
                         (take j [none4; none5]) in
           times "car" (ended0 st_j d)
           = (if decide (S j = r) then 1 else 0)%nat
           ∧ times "car" (started0 st_j d) = 0%nat
           ∧ current_ttl <$> tracked0 st_j d "car"
             = (if decide (j < r)%nat
                then Some (Z.of_nat r - Z.of_nat (S j)) else None)
           ∧ ((r ≤ S j)%nat →
              Dict.get "car" (_event_dict (process0 st_j d).2) = None
              ∧ _active_events (process0 st_j d).2 !! "car" = None)
           ∧ (process0 st_j d).1
             = Returned
                 (or_None ((start_trace0 st_j d).*2 ++ (end_trace0 st_j d).*2))
           ∧ end_events0 st_j d = (end_trace0 st_j d).*2
           ∧ (S j = r →
              ∃ event_id det l,
                _active_events st_j !! "car" = Some event_id
                ∧ ("car", EventEndedSignal event_id det) ∈ end_trace0 st_j d
                ∧ (process0 st_j d).1 = Returned (Some l)
                ∧ EventEndedSignal event_id det ∈ l
                ∧ detection <$> Dict.get "car" (_event_dict st_j) = Some det)
           ∧ (S j ≠ r →
              ∀ l s, (process0 st_j d).1 = Returned (Some l) → s ∈ l →
                     ∃ k, k ≠ "car" ∧ recorded0 st_j d k s))
      ∧ ((Z.to_nat 2 ≤ length [none4; none5])%nat →
         ∀ d, occurs 1 "car" d →
           Dict.get "car"
             (_event_dict (run0 (run0 (new 3 2) [car1; car2; car3])
                             [none4; none5])) = None
           ∧ _active_events (run0 (run0 (new 3 2) [car1; car2; car3])
                               [none4; none5]) !! "car" = None
           ∧ ∃ e, Dict.get "car"
                    (_event_dict
                       (process0
                          (run0 (run0 (new 3 2) [car1; car2; car3])
                             [none4; none5]) d).2) = Some e
                  ∧ num_detected_frames e = 1
                  ∧ detection e = d).
Proof.
  split; [exact active_car_123|]. split; [exact occurs_none_45|].
  exact (C2_ended_once uuid0 clock0 3 2 [car1; car2; car3] [none4; none5]
           "car" active_car_123 occurs_none_45).
Defined.

(** C1 without the condition [ttl >= 1] fails at [ttl = 0]: with
    [total_frames = 1] the car gets a Started signal at frame 1 and again
    at frame 2; with [total_frames = 2] it gets none in the first three
    frames, as each call ends by deleting its event. *)
Lemma C1_counterexample :
  times "car" (started0 (run0 (new 1 0) []) car1) = 1%nat
  ∧ times "car" (started0 (run0 (new 1 0) [car1]) car2) = 1%nat
  ∧ times "car" (started0 (run0 (new 2 0) []) car1) = 0%nat
  ∧ times "car" (started0 (run0 (new 2 0) [car1]) car2) = 0%nat
  ∧ times "car" (started0 (run0 (new 2 0) [car1; car2]) car3) = 0%nat
  ∧ Dict.get "car" (_event_dict (run0 (new 2 0) [car1; car2])) = None
  ∧ ¬ (∀ N L frames c,
         1 ≤ N → Forall (occurs 1 c) frames →
         ∀ (j : nat) d, frames !! j = Some d →
           times c (started0 (run0 (new N L) (take j frames)) d)
           = (if decide (Z.of_nat (S j) = N) then 1 else 0)%nat).
Proof.
  split; [vm_compute; reflexivity|]. split; [vm_compute; reflexivity|].
  split; [vm_compute; reflexivity|]. split; [vm_compute; reflexivity|].
  split; [vm_compute; reflexivity|]. split; [vm_compute; reflexivity|].
  intros H.
  specialize (H 1 0 [car1; car2; car3] "car" ltac:(lia) occurs_car_123
                1%nat car2 eq_refl).
  vm_compute in H. discriminate H.
Qed.

(** C4 with a strict inclusion fails: with [total_frames = 1] and
    [ttl = 1], after one frame with the car the car is the one tracked
    class and it is active, so the keys of the two dicts are the same
    set. *)
Lemma C4_counterexample :
  _active_events (run0 (new 1 1) [car1]) !! "car" = Some "0"
  ∧ dom (_active_events (run0 (new 1 1) [car1]))
    = (list_to_set (Dict.keys (_event_dict (run0 (new 1 1) [car1]))) : gset string)
  ∧ ¬ (dom (_active_events (run0 (new 1 1) [car1]))
       ⊂ (list_to_set (Dict.keys (_event_dict (run0 (new 1 1) [car1]))) : gset string)).
Proof.
  assert (dom (_active_events (run0 (new 1 1) [car1]))
    = (list_to_set (Dict.keys (_event_dict (run0 (new 1 1) [car1]))) : gset string))
    as Heq by (vm_compute; reflexivity).
  split; [vm_compute; reflexivity|]. split; [exact Heq|].
  rewrite Heq. intros [_ Hn]. by apply Hn.
Qed.

(** ** The further properties at concrete inputs *)

(** After a raising call, [ttl >= 1] does not keep a Started and an
    Ended signal for one class apart: with [total_frames = 2] and
    [ttl = 1], the car counts two frames after the broken frame 2 and is
    started and ended by the empty frame 3. *)
Example start_and_end_after_raise :
  outputs uuid0 clock0 (new 2 1) [car1; broken2; none4]
  = [Returned None; Raised KeyError;
     Returned (Some [EventStartedSignal "0" broken2;
                     EventEndedSignal "0" broken2])].
Proof. vm_compute. reflexivity. Qed.

(** X4 at a frame whose second prediction has no class identifier. *)
Lemma X4_witness :
  predictions broken2
  = Some ([mkPrediction (Some "car") ""]
          ++ mkPrediction None "" :: [mkPrediction (Some "dog") ""])
  ∧ mapM classId [mkPrediction (Some "car") ""] = Some ["car"]
  ∧ classId (mkPrediction None "") = None
  ∧ (process0 (run0 (new 3 2) [car1]) broken2
     = (Raised KeyError,
        update_steps clock0 broken2 ["car"] (run0 (new 3 2) [car1]))
     ∧ _active_events (process0 (run0 (new 3 2) [car1]) broken2).2
       = _active_events (run0 (new 3 2) [car1])
     ∧ uuid_calls (process0 (run0 (new 3 2) [car1]) broken2).2
       = uuid_calls (run0 (new 3 2) [car1])
     ∧ (∀ k, k ∉ ["car"] →
          Dict.get k (_event_dict (process0 (run0 (new 3 2) [car1]) broken2).2)
          = Dict.get k (_event_dict (run0 (new 3 2) [car1])))
     ∧ (∀ k, k ∈ ["car"] →
          ∃ e', Dict.get k
                  (_event_dict (process0 (run0 (new 3 2) [car1]) broken2).2)
                = Some e'
            ∧ num_detected_frames e'
              = counted (run0 (new 3 2) [car1]) k + Z.of_nat (times k ["car"])
            ∧ current_ttl e' = ttl e'
            ∧ detection e' = broken2)).
Proof.
  split; [reflexivity|]. split; [reflexivity|]. split; [reflexivity|].
  apply (X4_process_raises_half_way uuid0 clock0 (run0 (new 3 2) [car1])
           broken2 [mkPrediction (Some "car") ""] (mkPrediction None "")
           [mkPrediction (Some "dog") ""] ["car"]); reflexivity.
Defined.

Lemma car_in_car : "car" ∈ ["car"].
Proof. apply list_elem_of_singleton. reflexivity. Defined.

(** X6 at the second frame with the car. *)
Lemma X6_witness :
  1 ≤ 2
  ∧ frame_classes car2 = Some ["car"]
  ∧ "car" ∈ ["car"]
  ∧ (let st := run0 (new 3 2) [car1] in
     times "car" (ended0 st car2) = 0%nat
     ∧ (process0 st car2).1
       = Returned
           (or_None ((start_trace0 st car2).*2 ++ (end_trace0 st car2).*2))
     ∧ end_events0 st car2 = (end_trace0 st car2).*2
     ∧ (∀ l s, (process0 st car2).1 = Returned (Some l) → s ∈ l →
               is_ended s = true → ∃ k, k ≠ "car" ∧ recorded0 st car2 k s)
     ∧ ∃ e', Dict.get "car" (_event_dict (process0 st car2).2) = Some e'
         ∧ current_ttl e' = 2
         ∧ ttl e' = 2
         ∧ detection e' = car2
         ∧ num_detected_frames e'
           = counted st "car" + Z.of_nat (times "car" ["car"])).
Proof.
  split; [lia|]. split; [reflexivity|]. split; [exact car_in_car|].
  apply (X6_detection_resets_ttl uuid0 clock0 3 2 [car1] car2 ["car"] "car");
    [lia | reflexivity | exact car_in_car].
Defined.

Lemma wf_car_123 : Dict.wf (_event_dict (run0 (new 3 2) [car1; car2; car3])).
Proof. vm_compute. apply NoDup_singleton. Defined.

Lemma car_not_in_nil : "car" ∉ @nil string.
Proof. apply not_elem_of_nil. Defined.

(** X7 at frame 4 of Scenario B: the car has two frames left and keeps
    one. *)
Lemma X7_witness :
  Dict.wf (_event_dict (run0 (new 3 2) [car1; car2; car3]))
  ∧ frame_classes none4 = Some []
  ∧ ("car" ∉ @nil string)
  ∧ Dict.get "car" (_event_dict (run0 (new 3 2) [car1; car2; car3]))
    = Some car_event
  ∧ (Dict.get "car"
       (_event_dict (process0 (run0 (new 3 2) [car1; car2; car3]) none4).2)
     = (if decide (current_ttl car_event ≤ 1) then None
        else Some (no_detection car_event))
     ∧ ("car" ∈ ended0 (run0 (new 3 2) [car1; car2; car3]) none4
        ↔ current_ttl car_event ≤ 1
          ∧ (is_Some (_active_events (run0 (new 3 2) [car1; car2; car3])
                      !! "car")
             ∨ _total_frames (run0 (new 3 2) [car1; car2; car3])
               ≤ num_detected_frames car_event))
     ∧ (process0 (run0 (new 3 2) [car1; car2; car3]) none4).1
       = Returned
           (or_None
              ((start_trace0 (run0 (new 3 2) [car1; car2; car3]) none4).*2
               ++ (end_trace0 (run0 (new 3 2) [car1; car2; car3]) none4).*2))
     ∧ end_events0 (run0 (new 3 2) [car1; car2; car3]) none4
       = (end_trace0 (run0 (new 3 2) [car1; car2; car3]) none4).*2
     ∧ (current_ttl car_event ≤ 1
        ∧ (is_Some (_active_events (run0 (new 3 2) [car1; car2; car3])
                    !! "car")
           ∨ _total_frames (run0 (new 3 2) [car1; car2; car3])
             ≤ num_detected_frames car_event) →
        ∃ event_id l,
          (process0 (run0 (new 3 2) [car1; car2; car3]) none4).1
          = Returned (Some l)
          ∧ EventEndedSignal event_id (detection car_event) ∈ l
          ∧ ∀ id0,
              _active_events (run0 (new 3 2) [car1; car2; car3]) !! "car"
              = Some id0 → event_id = id0)
     ∧ (¬ (current_ttl car_event ≤ 1
           ∧ (is_Some (_active_events (run0 (new 3 2) [car1; car2; car3])
                       !! "car")
              ∨ _total_frames (run0 (new 3 2) [car1; car2; car3])
                ≤ num_detected_frames car_event)) →
        ∀ l s,
          (process0 (run0 (new 3 2) [car1; car2; car3]) none4).1
          = Returned (Some l) →
          s ∈ l → is_ended s = true →
          ∃ k, k ≠ "car"
               ∧ recorded0 (run0 (new 3 2) [car1; car2; car3]) none4 k s)).
Proof.
  split; [exact wf_car_123|]. split; [reflexivity|].
  split; [exact car_not_in_nil|]. split; [vm_compute; reflexivity|].
  apply (X7_absence_decays uuid0 clock0 (run0 (new 3 2) [car1; car2; car3])
           none4 [] "car" car_event);
    [exact wf_car_123 | reflexivity | exact car_not_in_nil
    | vm_compute; reflexivity].
Defined.

Lemma wf_car_1 : Dict.wf (_event_dict (run0 (new 3 2) [car1])).
Proof. vm_compute. apply NoDup_singleton. Defined.

(** X8 at a frame that lists the car twice after one frame with it. *)
Lemma X8_witness :
  Dict.wf (_event_dict (run0 (new 3 2) [car1]))
  ∧ frame_classes twice = Some ["car"; "dog"; "car"]
  ∧ (("car" ∈ started0 (run0 (new 3 2) [car1]) twice
      ↔ _active_events (run0 (new 3 2) [car1]) !! "car" = None
        ∧ ("car" ∈ ["car"; "dog"; "car"]
           ∨ is_Some (Dict.get "car" (_event_dict (run0 (new 3 2) [car1]))))
        ∧ _total_frames (run0 (new 3 2) [car1])
          ≤ counted (run0 (new 3 2) [car1]) "car"
            + Z.of_nat (times "car" ["car"; "dog"; "car"]))
     ∧ (process0 (run0 (new 3 2) [car1]) twice).1
       = Returned
           (or_None ((start_trace0 (run0 (new 3 2) [car1]) twice).*2
                     ++ (end_trace0 (run0 (new 3 2) [car1]) twice).*2))
     ∧ start_events0 (run0 (new 3 2) [car1]) twice
       = (start_trace0 (run0 (new 3 2) [car1]) twice).*2
     ∧ (_active_events (run0 (new 3 2) [car1]) !! "car" = None
        ∧ ("car" ∈ ["car"; "dog"; "car"]
           ∨ is_Some (Dict.get "car" (_event_dict (run0 (new 3 2) [car1]))))
        ∧ _total_frames (run0 (new 3 2) [car1])
          ≤ counted (run0 (new 3 2) [car1]) "car"
            + Z.of_nat (times "car" ["car"; "dog"; "car"]) →
        ∃ e event_id l,
          tracked0 (run0 (new 3 2) [car1]) twice "car" = Some e
          ∧ (process0 (run0 (new 3 2) [car1]) twice).1 = Returned (Some l)
          ∧ EventStartedSignal event_id (detection e) ∈ l)
     ∧ (¬ (_active_events (run0 (new 3 2) [car1]) !! "car" = None
           ∧ ("car" ∈ ["car"; "dog"; "car"]
              ∨ is_Some (Dict.get "car" (_event_dict (run0 (new 3 2) [car1]))))
           ∧ _total_frames (run0 (new 3 2) [car1])
             ≤ counted (run0 (new 3 2) [car1]) "car"
               + Z.of_nat (times "car" ["car"; "dog"; "car"])) →
        ∀ l s, (process0 (run0 (new 3 2) [car1]) twice).1 = Returned (Some l) →
               s ∈ l → is_started s = true →
               ∃ k, k ≠ "car" ∧ recorded0 (run0 (new 3 2) [car1]) twice k s)).
Proof.
  split; [exact wf_car_1|]. split; [reflexivity|].
  apply (X8_start_condition uuid0 clock0 (run0 (new 3 2) [car1]) twice
           ["car"; "dog"; "car"] "car"); [exact wf_car_1 | reflexivity].
Defined.

Lemma all_keys_car_12 : Forall (λ d, is_Some (frame_classes d)) [car1; car2].
Proof.
  repeat (apply Forall_cons_2; [exists ["car"]; reflexivity|]).
  apply Forall_nil_2.
Defined.

(** X9 at frame 3 of Scenario A. *)
Lemma X9_witness :
  1 ≤ 2
  ∧ Forall (λ d, is_Some (frame_classes d)) [car1; car2]
  ∧ frame_classes car3 = Some ["car"]
  ∧ (let st := run0 (new 3 2) [car1; car2] in
     ¬ ("car" ∈ started0 st car3 ∧ "car" ∈ ended0 st car3)
     ∧ (process0 st car3).1
       = Returned
           (or_None ((start_trace0 st car3).*2 ++ (end_trace0 st car3).*2))
     ∧ start_events0 st car3 = (start_trace0 st car3).*2
     ∧ end_events0 st car3 = (end_trace0 st car3).*2
     ∧ ∀ l s s', (process0 st car3).1 = Returned (Some l) → s ∈ l → s' ∈ l →
                 is_started s = true → is_ended s' = true →
                 ∃ k k', k ≠ k' ∧ recorded0 st car3 k s ∧ recorded0 st car3 k' s').
Proof.
  split; [lia|]. split; [exact all_keys_car_12|]. split; [reflexivity|].
  apply (X9_no_start_and_end_together uuid0 clock0 3 2 [car1; car2] car3
           ["car"] "car"); [lia | exact all_keys_car_12 | reflexivity].
Defined.

Lemma wf_car_12 : Dict.wf (_event_dict (run0 (new 3 2) [car1; car2])).
Proof. vm_compute. apply NoDup_singleton. Defined.

Lemma started_in_3 :
  EventStartedSignal "0" car3 ∈ [EventStartedSignal "0" car3].
Proof. apply list_elem_of_singleton. reflexivity. Defined.

(** X10 at frame 3 of Scenario A. *)
Lemma X10_witness :
  Dict.wf (_event_dict (run0 (new 3 2) [car1; car2]))
  ∧ frame_classes car3 = Some ["car"]
  ∧ (process0 (run0 (new 3 2) [car1; car2]) car3).1
    = Returned (Some [EventStartedSignal "0" car3])
  ∧ EventStartedSignal "0" car3 ∈ [EventStartedSignal "0" car3]
  ∧ is_started (EventStartedSignal "0" car3) = true
  ∧ ∃ c e event_id,
      tracked0 (run0 (new 3 2) [car1; car2]) car3 c = Some e
      ∧ EventStartedSignal "0" car3 = EventStartedSignal event_id (detection e)
      ∧ _active_events (run0 (new 3 2) [car1; car2]) !! c = None
      ∧ _total_frames (run0 (new 3 2) [car1; car2]) ≤ num_detected_frames e
      ∧ (c ∈ ["car"] → detection e = car3)
      ∧ (is_expired e = false →
         _active_events (process0 (run0 (new 3 2) [car1; car2]) car3).2 !! c
         = Some event_id).
Proof.
  split; [exact wf_car_12|]. split; [reflexivity|].
  split; [vm_compute; reflexivity|]. split; [exact started_in_3|].
  split; [reflexivity|].
  apply (X10_started_signal uuid0 clock0 (run0 (new 3 2) [car1; car2]) car3
           ["car"] [EventStartedSignal "0" car3] (EventStartedSignal "0" car3));
    [exact wf_car_12 | reflexivity | vm_compute; reflexivity
    | exact started_in_3 | reflexivity].
Defined.

Lemma wf_car_1234 :
  Dict.wf (_event_dict (run0 (new 3 2) [car1; car2; car3; none4])).
Proof. vm_compute. apply NoDup_singleton. Defined.

Lemma ended_in_5 :
  EventEndedSignal "0" car3 ∈ [EventEndedSignal "0" car3].
Proof. apply list_elem_of_singleton. reflexivity. Defined.

(** X11 at frame 5 of Scenario B. *)
Lemma X11_witness :
  Dict.wf (_event_dict (run0 (new 3 2) [car1; car2; car3; none4]))
  ∧ frame_classes none5 = Some []
  ∧ (process0 (run0 (new 3 2) [car1; car2; car3; none4]) none5).1
    = Returned (Some [EventEndedSignal "0" car3])
  ∧ EventEndedSignal "0" car3 ∈ [EventEndedSignal "0" car3]
  ∧ is_ended (EventEndedSignal "0" car3) = true
  ∧ (let st := run0 (new 3 2) [car1; car2; car3; none4] in
     ∃ c e event_id,
       tracked0 st none5 c = Some e
       ∧ is_expired e = true
       ∧ EventEndedSignal "0" car3 = EventEndedSignal event_id (detection e)
       ∧ (_active_events st !! c = Some event_id
          ∨ (_active_events st !! c = None
             ∧ _total_frames st ≤ num_detected_frames e
             ∧ EventStartedSignal event_id (detection e)
               ∈ [EventEndedSignal "0" car3]))
       ∧ ((c ∉ @nil string) →
          ∃ e0, Dict.get c (_event_dict st) = Some e0
                ∧ detection e = detection e0)
       ∧ Dict.get c (_event_dict (process0 st none5).2) = None
       ∧ _active_events (process0 st none5).2 !! c = None).
Proof.
  split; [exact wf_car_1234|]. split; [reflexivity|].
  split; [vm_compute; reflexivity|]. split; [exact ended_in_5|].
  split; [reflexivity|].
  apply (X11_ended_signal uuid0 clock0
           (run0 (new 3 2) [car1; car2; car3; none4]) none5 []
           [EventEndedSignal "0" car3] (EventEndedSignal "0" car3));
    [exact wf_car_1234 | reflexivity | vm_compute; reflexivity
    | exact ended_in_5 | reflexivity].
Defined.

Lemma car_not_expired_4 :
  ∀ e, tracked0 (run0 (new 3 2) [car1; car2; car3]) none4 "car" = Some e →
       is_expired e = false.
Proof. intros e He. vm_compute in He. injection He as <-. reflexivity. Defined.

(** X12 at frame 4 of Scenario B. *)
Lemma X12_witness :
  Dict.wf (_event_dict (run0 (new 3 2) [car1; car2; car3]))
  ∧ frame_classes none4 = Some []
  ∧ _active_events (run0 (new 3 2) [car1; car2; car3]) !! "car" = Some "0"
  ∧ (∀ e, tracked0 (run0 (new 3 2) [car1; car2; car3]) none4 "car" = Some e →
          is_expired e = false)
  ∧ (let st := run0 (new 3 2) [car1; car2; car3] in
     _active_events (process0 st none4).2 !! "car" = Some "0"
     ∧ ("car" ∉ started0 st none4)
     ∧ ("car" ∉ ended0 st none4)
     ∧ (process0 st none4).1
       = Returned
           (or_None ((start_trace0 st none4).*2 ++ (end_trace0 st none4).*2))
     ∧ ∀ l s, (process0 st none4).1 = Returned (Some l) → s ∈ l →
              ∃ k, k ≠ "car" ∧ recorded0 st none4 k s).
Proof.
  split; [exact wf_car_123|]. split; [reflexivity|].
  split; [vm_compute; reflexivity|]. split; [exact car_not_expired_4|].
  apply (X12_identifier_kept uuid0 clock0 (run0 (new 3 2) [car1; car2; car3])
           none4 [] "car" "0");
    [exact wf_car_123 | reflexivity | vm_compute; reflexivity
    | exact car_not_expired_4].
Defined.

(** X13 at a first frame with two classes and [total_frames = 1]. *)
Lemma X13_witness :
  frame_classes car_dog = Some ["car"; "dog"]
  ∧ (uuid_calls (process0 (new 1 1) car_dog).2
     = (uuid_calls (new 1 1) + length (start_events0 (new 1 1) car_dog))%nat
     ∧ event_id_of <$> start_events0 (new 1 1) car_dog
       = uuid0 <$> seq (uuid_calls (new 1 1))
                     (length (start_events0 (new 1 1) car_dog))
     ∧ ((∀ i j, uuid0 i = uuid0 j → i = j) →
        NoDup (event_id_of <$> start_events0 (new 1 1) car_dog))).
Proof.
  split; [reflexivity|].
  apply (X13_identifiers_drawn uuid0 clock0 (new 1 1) car_dog ["car"; "dog"]).
  reflexivity.
Defined.


(** X15 at a payload without predictions, on a pipeline that has printed
    a line. *)
Lemma X15_witness :
  (predictions no_predictions = None
   ∨ ∃ p ps, predictions no_predictions = Some (p :: ps) ∧ classId p = None)
  ∧ process_detection uuid0 clock0 roi_none
      (mkPipeline (new 3 2) ["handbag encontrada! Avise o funcionario"])
      no_predictions
    = (Failed (PyError KeyError),
       mkPipeline (new 3 2) ["handbag encontrada! Avise o funcionario"]).
Proof.
  split; [left; reflexivity|].
  apply (X15_process_detection_early_error uuid0 clock0 roi_none
           (mkPipeline (new 3 2) ["handbag encontrada! Avise o funcionario"])
           no_predictions).
  left. reflexivity.
Defined.

(** X16 at a payload that lists a handbag first, with a region filter
    that keeps no prediction: the line is printed all the same. *)
Lemma X16_witness :
  predictions bag_first
  = Some [mkPrediction (Some "handbag") ""; mkPrediction (Some "person") ""]
  ∧ ([mkPrediction (Some "handbag") ""; mkPrediction (Some "person") ""] = []
     ∨ is_Some (head [mkPrediction (Some "handbag") "";
                      mkPrediction (Some "person") ""] ≫= classId))
  ∧ stdout (process_detection uuid0 clock0 roi_none
              (mkPipeline (new 3 2) []) bag_first).2
    = ["handbag encontrada! Avise o funcionario"].
Proof.
  split; [reflexivity|].
  assert ([mkPrediction (Some "handbag") ""; mkPrediction (Some "person") ""] = []
          ∨ is_Some (head [mkPrediction (Some "handbag") "";
                           mkPrediction (Some "person") ""] ≫= classId)) as H
    by (right; exists "handbag"; reflexivity).
  split; [exact H|].
  destruct (X16_process_detection_alert uuid0 clock0 roi_none
              (mkPipeline (new 3 2) []) bag_first
              [mkPrediction (Some "handbag") ""; mkPrediction (Some "person") ""]
              eq_refl H) as [Hout _].
  exact Hout.
Defined.
